(** * CSV ingestion pipeline of [index.js]: a shallow embedding

    The development follows [src/index.js]: the nested field assigner
    [setNestedProperty], the record transformer [transformForDb], the batch
    writer [insertDataBatch] and the row loop of the [/upload] handler.

    Conventions of the embedding.
    - A JavaScript string is a [string]; one character stands for one code
      unit below 256.
    - A JavaScript value is a [value]. The numbers the code builds are
      those [parseInt] returns: a double that holds an integer ([VNum]),
      an infinity ([VInf]) or not-a-number ([VNaN]); a zero stands for
      both zeros, which the code does not tell apart. The code builds no
      booleans and no functions.
    - A plain object is the list of its own properties in creation order;
      its prototype is [Object.prototype]. JavaScript enumerates
      integer-like keys before the others; the list is not reordered for
      them.
    - The file is a CommonJS script without a strict-mode directive, so a
      write to a property of a primitive is silently ignored. *)

From Stdlib Require Import List String Ascii Bool Arith ZArith Lia.
From Stdlib Require Import Numbers.DecimalString Numbers.DecimalPos.
Import ListNotations.
Local Open Scope string_scope.
Local Open Scope list_scope.

(** ** Outcomes of a call *)

Inductive exn : Type :=
| TypeError      (* thrown by the runtime *)
| ConnectError.  (* rejection of [pool.connect()] *)

(** [Escapes]: the call completes, but on its way [current] left the record
    and reached a value that belongs to the runtime (a member of a built-in
    prototype, the length or a character of a string). What is written
    there is outside the record and is not tracked. *)
Inductive outcome (A : Type) : Type :=
| Ok (a : A)
| Throw (e : exn)
| Escapes.

Arguments Ok {A} a.
Arguments Throw {A} e.
Arguments Escapes {A}.

Definition bind {A B : Type} (m : outcome A) (f : A -> outcome B) : outcome B :=
  match m with
  | Ok a => f a
  | Throw e => Throw e
  | Escapes => Escapes
  end.

Notation "x <- m ;; k" := (bind m (fun x => k))
  (at level 61, m at next level, right associativity).

(** ** Values *)

#[local] Set Warnings "-register-all".

Inductive value : Type :=
| VUndef
| VNull
| VStr (s : string)
| VNum (n : Z)
| VNaN
| VObj (props : list (string * value))
| VInf (negative : bool).

Definition object : Type := list (string * value).

(** Truthiness, as [!x], [x || y] and [x && y] test it. *)
Definition truthy (v : value) : bool :=
  match v with
  | VUndef | VNull | VNaN => false
  | VStr s => negb (s =? "")
  | VNum n => negb (n =? 0)%Z
  | VObj _ => true
  | VInf _ => true
  end.

(** [a || b] *)
Definition or_else (a b : value) : value := if truthy a then a else b.

Definition is_primitive (v : value) : bool :=
  match v with
  | VStr _ | VNum _ | VNaN | VInf _ => true
  | _ => false
  end.

(** ** Own properties *)

Fixpoint get (ps : object) (k : string) : option value :=
  match ps with
  | [] => None
  | (k', v) :: t => if k' =? k then Some v else get t k
  end.

(** A write to an own property keeps its place; a new property goes last. *)
Fixpoint put (ps : object) (k : string) (v : value) : object :=
  match ps with
  | [] => [(k, v)]
  | (k', v') :: t => if k' =? k then (k, v) :: t else (k', v') :: put t k v
  end.

Definition has (ps : object) (k : string) : bool :=
  match get ps k with Some _ => true | None => false end.

(** [o.k] for an object whose prototype chain does not define [k]. *)
Definition get_or_undef (ps : object) (k : string) : value :=
  match get ps k with Some v => v | None => VUndef end.

(** ** Properties the runtime defines *)

Definition mem (k : string) (l : list string) : bool :=
  existsb (String.eqb k) l.

Arguments mem : simpl never.

Definition object_proto : list string :=
  ["constructor"; "__defineGetter__"; "__defineSetter__"; "hasOwnProperty";
   "__lookupGetter__"; "__lookupSetter__"; "isPrototypeOf";
   "propertyIsEnumerable"; "toString"; "valueOf"; "__proto__";
   "toLocaleString"].

Definition string_proto : list string :=
  ["anchor"; "at"; "big"; "blink"; "bold"; "charAt"; "charCodeAt";
   "codePointAt"; "concat"; "endsWith"; "fontcolor"; "fontsize"; "fixed";
   "includes"; "indexOf"; "isWellFormed"; "italics"; "lastIndexOf"; "link";
   "localeCompare"; "match"; "matchAll"; "normalize"; "padEnd"; "padStart";
   "repeat"; "replace"; "replaceAll"; "search"; "slice"; "small"; "split";
   "strike"; "sub"; "substr"; "substring"; "sup"; "startsWith";
   "toLocaleLowerCase"; "toLocaleUpperCase"; "toLowerCase"; "toUpperCase";
   "toWellFormed"; "trim"; "trimStart"; "trimLeft"; "trimEnd"; "trimRight"].

Definition number_proto : list string :=
  ["toExponential"; "toFixed"; "toPrecision"].

Definition string_of_Z (n : Z) : string :=
  NilZero.string_of_int (Z.to_int n).

(** [k] is the canonical form of an index below the length of [s]. *)
Definition is_index (k s : string) : bool :=
  existsb (fun i => k =? string_of_Z (Z.of_nat i)) (seq 0 (String.length s)).

(** Does reading [p[k]] on the primitive [p] find a property? *)
Definition inherited (p : value) (k : string) : bool :=
  match p with
  | VStr s => mem k object_proto || mem k string_proto
              || (k =? "length") || is_index k s
  | VNum _ | VNaN | VInf _ => mem k object_proto || mem k number_proto
  | _ => false
  end.

(** ** Strings: [split], [trim], [parseInt] *)

(** [s.split(sep)] for a one-character separator. *)
Fixpoint split (sep : ascii) (s : string) : list string :=
  match s with
  | "" => [""]
  | String c s' =>
      if Ascii.eqb c sep then "" :: split sep s'
      else match split sep s' with
           | h :: t => String c h :: t
           | [] => [String c ""]
           end
  end.

(** White space and line terminators among the code units below 256. *)
Definition is_ws (c : ascii) : bool :=
  let n := nat_of_ascii c in
  ((n =? 9) || (n =? 10) || (n =? 11) || (n =? 12) || (n =? 13)
   || (n =? 32) || (n =? 160))%nat.

Fixpoint trimStart (s : string) : string :=
  match s with
  | String c s' => if is_ws c then trimStart s' else s
  | "" => ""
  end.

Definition rev_string (s : string) : string :=
  string_of_list_ascii (rev (list_ascii_of_string s)).

Definition trimEnd (s : string) : string :=
  rev_string (trimStart (rev_string s)).

Definition trim (s : string) : string := trimEnd (trimStart s).

Definition digit_of (c : ascii) : option Z :=
  let n := nat_of_ascii c in
  if ((48 <=? n) && (n <=? 57))%nat then Some (Z.of_nat (n - 48)) else None.

(** The value of the longest prefix of digits, [None] when it is empty. *)
Fixpoint digits (s : string) (acc : option Z) : option Z :=
  match s with
  | String c s' =>
      match digit_of c with
      | Some d =>
          digits s' (Some (10 * (match acc with Some a => a | None => 0 end) + d))%Z
      | None => acc
      end
  | "" => acc
  end.

(** The sign a numeral starts with, and what follows it. *)
Definition sign_and_rest (s : string) : bool * string :=
  match s with
  | String c r =>
      if Ascii.eqb c "-" then (true, r)
      else if Ascii.eqb c "+" then (false, r)
      else (false, s)
  | "" => (false, "")
  end.

(** The double nearest to an integer, as a value. Below 2^53 in magnitude
    every integer is a double. Above, a double has a significand [q] of 53
    bits and an exponent [e]: the integer is rounded to the nearest
    multiple of [2^e], to the even significand when it lies half-way, and
    to an infinity when that reaches 2^1024. *)
Definition double_of_Z (n : Z) : value :=
  (let m := Z.abs n in
   if m <? 2 ^ 53 then VNum n
   else
     let e := Z.log2 m - 52 in
     let q := Z.shiftr m e in
     let r := m - Z.shiftl q e in
     let half := Z.shiftl 1 (e - 1) in
     let q' := if (half <? r) || ((r =? half) && Z.odd q) then q + 1 else q in
     let d := Z.shiftl q' e in
     if 2 ^ 1024 <=? d then VInf (n <? 0) else VNum (Z.sgn n * d))%Z.

Arguments double_of_Z : simpl never.

(** [parseInt(s, 10)] on a string: the sign times the integer the digits
    denote, as a number. The number is the double nearest to that integer,
    as Node's engine computes it; ECMAScript lets an engine replace the
    digits after the twentieth by zeros first. *)
Definition parseInt10 (s : string) : value :=
  let '(neg, s2) := sign_and_rest (trimStart s) in
  match digits s2 None with
  | None => VNaN
  | Some n => double_of_Z (if neg then - n else n)%Z
  end.

(** [String(v)], as a template literal and [parseInt] apply it. An object
    with an own [toString] holds a value that is not callable there, and
    the inherited [valueOf] returns the object: the conversion throws. The
    text of a number is its decimal numeral, which is what JavaScript
    prints below 10^21 in magnitude; the code converts no number. *)
Definition ToString (v : value) : outcome string :=
  match v with
  | VUndef => Ok "undefined"
  | VNull => Ok "null"
  | VStr s => Ok s
  | VNum n => Ok (string_of_Z n)
  | VNaN => Ok "NaN"
  | VObj ps => if has ps "toString" then Throw TypeError
               else Ok "[object Object]"
  | VInf negative => Ok (if negative then "-Infinity" else "Infinity")
  end.

(** [parseInt(v, 10)] *)
Definition parseInt (v : value) : outcome value :=
  s <- ToString v ;; Ok (parseInt10 s).

(** ** The nested field assigner *)

(** [current[lastKey] = v] on an object of the record. The only setter on
    the prototype chain is the one of [__proto__]: it replaces the prototype
    when given an object or null and ignores any other value. *)
Definition assign (current : object) (lastKey : string) (v : value)
  : outcome object :=
  if (lastKey =? "__proto__") && negb (has current "__proto__") then
    match v with
    | VObj _ | VNull => Escapes
    | _ => Ok current
    end
  else Ok (put current lastKey v).

(** The rest of the loop once [current] is the truthy primitive [p]. With a
    segment [key] left, [p[key]] is undefined unless the runtime defines
    it, the write [p[key] = {}] is ignored, [current] becomes undefined and
    the next property access throws. With no segment left, the final write
    [p[lastKey] = ...] is ignored. *)
Definition walk_primitive (p : value) (keys : list string) : outcome unit :=
  match keys with
  | [] => Ok tt
  | key :: _ => if inherited p key then Escapes else Throw TypeError
  end.

(** The loop over [keys[0 .. length - 2]] followed by the final write,
    returning the object [current] started from as the call leaves it. *)
Fixpoint walk (current : object) (keys : list string) (lastKey : string)
  (v : value) : outcome object :=
  match keys with
  | [] => assign current lastKey v
  | key :: keys' =>
      match get current key with
      | Some (VObj child) =>
          r <- walk child keys' lastKey v ;; Ok (put current key (VObj r))
      | Some c =>
          if truthy c then u <- walk_primitive c keys' ;; Ok current
          else r <- walk [] keys' lastKey v ;; Ok (put current key (VObj r))
      | None =>
          if mem key object_proto then Escapes
          else r <- walk [] keys' lastKey v ;; Ok (put current key (VObj r))
      end
  end.

(** The value the final write stores. When [path] is [age] there is no
    intermediate segment, so evaluating it before the walk changes
    nothing. *)
Definition stored (path : string) (v : value) : outcome value :=
  if (path =? "age") && truthy v then parseInt v else Ok v.

Definition is_empty_string (v : value) : bool :=
  match v with
  | VStr "" => true
  | _ => false
  end.

Definition setNestedProperty (obj : object) (path : string) (v : value)
  : outcome object :=
  if is_empty_string v then Ok obj
  else
    let keys := split "." path in
    x <- stored path v ;;
    walk obj (removelast keys) (last keys "") x.

(** ** The record transformer *)

Record dbRow : Type := {
  name : string;
  age : value;
  address : value;
  additional_info : value
}.

(** [v?.k] for a key no built-in prototype defines. *)
Definition member (v : value) (k : string) : value :=
  match v with
  | VObj ps => get_or_undef ps k
  | _ => VUndef
  end.

(** The rest pattern: the own properties other than the three named. *)
Definition rest_of (obj : object) : object :=
  filter (fun kv => negb (mem (fst kv) ["name"; "age"; "address"])) obj.

Definition transformForDb (obj : object) : outcome dbRow :=
  let name_ := get_or_undef obj "name" in
  let age_ := get_or_undef obj "age" in
  let address_ := get_or_undef obj "address" in
  let additional_info_ := VObj (rest_of obj) in
  firstName <- ToString (or_else (member name_ "firstName") (VStr "")) ;;
  lastName <- ToString (or_else (member name_ "lastName") (VStr "")) ;;
  Ok {| name := trim (firstName ++ " " ++ lastName);
        age := or_else age_ (VNum 0);
        address := or_else address_ VNull;
        additional_info := or_else additional_info_ VNull |}.

(** ** The row loop *)

(** [values[index]] *)
Definition value_at (values : list string) (index : nat) : value :=
  match nth_error values index with
  | Some s => VStr s
  | None => VUndef
  end.

Fixpoint forEach (headers : list string) (index : nat) (values : list string)
  (rowObject : object) : outcome object :=
  match headers with
  | [] => Ok rowObject
  | header :: rest =>
      rowObject' <- setNestedProperty rowObject header (value_at values index) ;;
      forEach rest (S index) values rowObject'
  end.

(** The body of the [else] branch up to [transformForDb]. *)
Definition row_of_line (headers : list string) (line : string) : outcome dbRow :=
  let values := split "," line in
  rowObject <- forEach headers 0 values [] ;;
  transformForDb rowObject.

(** ** The batch writer and the driver *)

Definition BATCH_SIZE : nat := 1000.

(** What the database does with one call of [insertDataBatch]. *)
Inductive reply : Type :=
| ConnectFails   (* [pool.connect()] rejects *)
| QueryFails     (* [client.query] rejects *)
| Inserted.

(** A line [insertDataBatch] writes to the console; the error object
    printed after the text of [console.error] is not kept. *)
Inductive console_line : Type :=
| Log (text : string)      (* [console.log] *)
| Error (text : string).   (* [console.error] *)

Definition nat_text (n : nat) : string := string_of_Z (Z.of_nat n).

Definition inserted_text (n : nat) : string :=
  "Successfully inserted batch of " ++ nat_text n ++ " records.".

Definition error_text : string := "Error inserting batch:".

(** The table [public.users], the list of the inserts sent to it, and what
    [insertDataBatch] has written to the console. *)
Record store : Type := {
  attempts : list (list dbRow);
  persisted : list dbRow;
  logged : list console_line
}.

Inductive response : Type :=
| Status200
| Status500.

Record loop : Type := {
  headers : list string;
  isFirstLine : bool;
  batch : list dbRow;
  users : store
}.

(** How the [for await] loop ends. *)
Inductive ending : Type :=
| Finished (st : loop)
| Caught (e : exn) (s : store)
| Untracked.

Section Upload.

(** The database: its reply to the insert of a batch, given the number of
    inserts sent before. *)
Variable db : nat -> list dbRow -> reply.

(** [pool.connect()] is awaited outside the [try]: its rejection leaves
    the function. A rejection of [client.query] is caught and logged. *)
Definition insertDataBatch (b : list dbRow) (s : store) : outcome store :=
  match b with
  | [] => Ok s
  | _ :: _ =>
      match db (List.length (attempts s)) b with
      | ConnectFails => Throw ConnectError
      | QueryFails =>
          Ok {| attempts := attempts s ++ [b]; persisted := persisted s;
                logged := logged s ++ [Error error_text] |}
      | Inserted =>
          Ok {| attempts := attempts s ++ [b];
                persisted := persisted s ++ b;
                logged := logged s ++ [Log (inserted_text (List.length b))] |}
      end
  end.

(** One iteration of [for await (const line of rl)]. *)
Definition on_line (st : loop) (line : string) : outcome loop :=
  if isFirstLine st then
    Ok {| headers := split "," line; isFirstLine := false;
          batch := batch st; users := users st |}
  else
    r <- row_of_line (headers st) line ;;
    let batch' := batch st ++ [r] in
    if (BATCH_SIZE <=? List.length batch')%nat then
      s <- insertDataBatch batch' (users st) ;;
      Ok {| headers := headers st; isFirstLine := false;
            batch := []; users := s |}
    else
      Ok {| headers := headers st; isFirstLine := false;
            batch := batch'; users := users st |}.

(** The loop. A throw is caught by the handler: [Caught] keeps the store
    as it then is. *)
Fixpoint for_await (lines : list string) (st : loop) : ending :=
  match lines with
  | [] => Finished st
  | line :: rest =>
      match on_line st line with
      | Ok st' => for_await rest st'
      | Throw e => Caught e (users st)
      | Escapes => Untracked
      end
  end.

Definition start : loop :=
  {| headers := []; isFirstLine := true; batch := [];
     users := {| attempts := []; persisted := []; logged := [] |} |}.

(** The [if (batch.length > 0)] after the loop. *)
Definition final_flush (st : loop) : outcome store :=
  if (0 <? List.length (batch st))%nat
  then insertDataBatch (batch st) (users st)
  else Ok (users st).

(** The handler of [POST /upload] on a file that exists, given its lines:
    the response sent and the store at that moment. [None] when a line
    made [setNestedProperty] leave the record. *)
Definition upload (lines : list string) : option (response * store) :=
  match for_await lines start with
  | Finished st =>
      match final_flush st with
      | Ok s => Some (Status200, s)
      | Throw _ => Some (Status500, users st)
      | Escapes => None
      end
  | Caught _ s => Some (Status500, s)
  | Untracked => None
  end.

End Upload.

(** ** Notions used to state the properties *)

(** No dot occurs in the segment. *)
Fixpoint dotless (s : string) : bool :=
  match s with
  | "" => true
  | String c s' => negb (Ascii.eqb c ".") && dotless s'
  end.

(** The path whose segments are [ks]. *)
Fixpoint join (ks : list string) : string :=
  match ks with
  | [] => ""
  | [k] => k
  | k :: ks' => k ++ "." ++ join ks'
  end.

(** The value found by following [ks] from [obj] through mappings. *)
Fixpoint reach (obj : object) (ks : list string) : option value :=
  match ks with
  | [] => None
  | [k] => get obj k
  | k :: ks' =>
      match get obj k with
      | Some (VObj child) => reach child ks'
      | _ => None
      end
  end.

(** Nowhere in the value is a leaf the empty string or null. *)
Fixpoint clean (v : value) : bool :=
  match v with
  | VStr "" => false
  | VNull => false
  | VObj ps => forallb (fun kv : string * value => let (_, x) := kv in clean x) ps
  | _ => true
  end.

Definition clean_object (ps : object) : bool := clean (VObj ps).

(** The value can be turned into a string: it is not a mapping with a
    key [toString]. *)
Definition printable (v : value) : bool :=
  match v with
  | VObj ps => negb (has ps "toString")
  | _ => true
  end.

(** The text [`${v || ''}`] of a printable value. *)
Definition shown (v : value) : string :=
  match v with
  | VStr s => s
  | VNum n => if (n =? 0)%Z then "" else string_of_Z n
  | VObj _ => "[object Object]"
  | VInf negative => if negative then "-Infinity" else "Infinity"
  | _ => ""
  end.


(** The integer a decimal numeral denotes, read from the left. *)
Fixpoint uint_value (d : Decimal.uint) (acc : Z) : Z :=
  match d with
  | Decimal.Nil => acc
  | Decimal.D0 l => uint_value l (10 * acc + 0)
  | Decimal.D1 l => uint_value l (10 * acc + 1)
  | Decimal.D2 l => uint_value l (10 * acc + 2)
  | Decimal.D3 l => uint_value l (10 * acc + 3)
  | Decimal.D4 l => uint_value l (10 * acc + 4)
  | Decimal.D5 l => uint_value l (10 * acc + 5)
  | Decimal.D6 l => uint_value l (10 * acc + 6)
  | Decimal.D7 l => uint_value l (10 * acc + 7)
  | Decimal.D8 l => uint_value l (10 * acc + 8)
  | Decimal.D9 l => uint_value l (10 * acc + 9)
  end%Z.

(** The string starts with a decimal digit. *)
Definition leading_digit (s : string) : bool :=
  match s with
  | String c _ => match digit_of c with Some _ => true | None => false end
  | "" => false
  end.

(** What the record holds under [age] is a finite number or not-a-number,
    as the path [age] stores them for a numeral within the range of doubles
    and for a text no digit leads, or undefined, or nothing. *)
Definition age_finite (obj : object) : bool :=
  match get obj "age" with
  | None | Some (VNum _) | Some VNaN | Some VUndef => true
  | _ => false
  end.

(** The value is printable and, when a number, below 10^21 in magnitude,
    where its text is its decimal numeral. *)
Definition legible (v : value) : bool :=
  printable v
  && match v with
     | VNum n => (Z.abs n <? 10 ^ 21)%Z
     | _ => true
     end.

(** The store once the insert of [b] has been sent and answered. *)
Definition answered (db : nat -> list dbRow -> reply) (s : store)
  (b : list dbRow) : store :=
  {| attempts := attempts s ++ [b];
     persisted := persisted s ++
                  match db (List.length (attempts s)) b with
                  | Inserted => b
                  | _ => []
                  end;
     logged := logged s ++
               [match db (List.length (attempts s)) b with
                | Inserted => Log (inserted_text (List.length b))
                | _ => Error error_text
                end] |}.

(** The rows of the inserts [a], numbered from [i], that the database
    accepted. *)
Fixpoint landed (db : nat -> list dbRow -> reply) (i : nat)
  (a : list (list dbRow)) : list dbRow :=
  match a with
  | [] => []
  | b :: a' =>
      match db i b with
      | Inserted => b
      | _ => []
      end ++ landed db (S i) a'
  end.

(** The loop state past the header line. *)
Definition at_row (hs : list string) (b : list dbRow) (s : store) : loop :=
  {| headers := hs; isFirstLine := false; batch := b; users := s |}.

(** The line builds the row: no call throws or leaves the record. *)
Definition builds (hs : list string) (line : string) (r : dbRow) : Prop :=
  row_of_line hs line = Ok r.

Definition empty_store : store :=
  {| attempts := []; persisted := []; logged := [] |}.

(** The database that accepts every insert. *)
Definition accepting : nat -> list dbRow -> reply := fun _ _ => Inserted.

(** Two loop states that differ at most in what the table holds. *)
Definition alike (st st' : loop) : Prop :=
  headers st = headers st' /\ isFirstLine st = isFirstLine st'
  /\ batch st = batch st' /\ attempts (users st) = attempts (users st').

(** The table holds the rows of the accepted inserts, and no others. *)
Definition accounted (db : nat -> list dbRow -> reply) (s : store) : Prop :=
  persisted s = landed db 0 (attempts s).

(** The database whose second insert fails. *)
Definition second_fails : nat -> list dbRow -> reply :=
  fun i _ => if (i =? 1)%nat then QueryFails else Inserted.

(** Two runs send the same response after the same inserts. *)
Definition same_inserts (x y : option (response * store)) : Prop :=
  match x, y with
  | Some (resp, s), Some (resp', s') =>
      resp = resp' /\ attempts s = attempts s'
  | None, None => True
  | _, _ => False
  end.

(** [l.join(sep)] for a one-character separator. *)
Fixpoint join_with (sep : ascii) (l : list string) : string :=
  match l with
  | [] => ""
  | [s] => s
  | s :: l' => s ++ String sep (join_with sep l')
  end.

Fixpoint count_char (c : ascii) (s : string) : nat :=
  match s with
  | "" => 0
  | String x s' => (if Ascii.eqb x c then 1 else 0) + count_char c s'
  end.

(** Following [ks] from [obj] meets a truthy value that is no mapping. *)
Fixpoint blocked (obj : object) (ks : list string) : bool :=
  match ks with
  | [] => false
  | k :: ks' =>
      match get obj k with
      | Some (VObj child) => blocked child ks'
      | Some c => truthy c
      | None => false
      end
  end.

(** The inserts the loop sends before the final flush: full batches. *)
Definition full_batches (a : list (list dbRow)) : Prop :=
  Forall (fun b => List.length b = BATCH_SIZE) a.

(** The insert of the final flush: none when nothing is left over. *)
Definition final_insert (rest : list dbRow) : list (list dbRow) :=
  match rest with
  | [] => []
  | _ :: _ => [rest]
  end.

(** White space at the start, at the end, and throughout. *)
Definition starts_ws (s : string) : bool :=
  match s with
  | String c _ => is_ws c
  | "" => false
  end.

Definition ends_ws (s : string) : bool := starts_ws (rev_string s).

Fixpoint all_ws (s : string) : bool :=
  match s with
  | "" => true
  | String c s' => is_ws c && all_ws s'
  end.

(** A non-empty string without white space at either end. *)
Definition tidy (s : string) : bool :=
  negb (s =? "") && negb (starts_ws s) && negb (ends_ws s).

(** *** The statement [insertDataBatch] sends *)

(** The text the callback of [batch.map] returns for the row at
    [rowIndex]. *)
Definition placeholders (rowIndex : nat) : string :=
  let i := rowIndex * 4 in
  "($" ++ nat_text (i + 1) ++ ", $" ++ nat_text (i + 2) ++ ", $"
  ++ nat_text (i + 3) ++ ", $" ++ nat_text (i + 4) ++ ")".

(** What the callback pushes on [values]. *)
Definition pushed (row : dbRow) : list value :=
  [VStr (name row); age row; address row; additional_info row].

(** [batch.map(callback)] from [rowIndex] on, with the array [values] the
    callback appends to: the texts returned and [values] at the end. *)
Fixpoint map_rows (batch : list dbRow) (rowIndex : nat) (values : list value)
  : list string * list value :=
  match batch with
  | [] => ([], values)
  | row :: rest =>
      let '(texts, values') := map_rows rest (S rowIndex) (values ++ pushed row) in
      (placeholders rowIndex :: texts, values')
  end.

Definition newline : ascii := ascii_of_nat 10.

Definition queryText (queryParams : string) : string :=
  String newline
    ("      INSERT INTO public.users (name, age, address, additional_info) "
     ++ String newline ("      VALUES " ++ queryParams
     ++ String newline "    ")).

(** The two arguments of [client.query]. *)
Definition query_of (batch : list dbRow) : string * list value :=
  let '(texts, values) := map_rows batch 0 [] in
  (queryText (join_with "," texts), values).

(** The numbers of the parameters [$n] a statement names, in the order of
    the text. *)
Fixpoint dollars (s : string) : list Z :=
  match s with
  | "" => []
  | String c s' =>
      if Ascii.eqb c "$" then
        match digits s' None with
        | Some n => n :: dollars s'
        | None => dollars s'
        end
      else dollars s'
  end.

(** *** The age distribution report

    The query of [calculateAndPrintAgeDistribution] over the table
    [public.users], of which it reads the column [age] only: the table is
    given by the ages of its rows, which are integers and not null. A
    percentage is kept in hundredths. *)

(** The [CASE] of [age_groups]; [None] stands for NULL. *)
Definition age_group (age : Z) : option string :=
  (if age <? 20 then Some "< 20"
   else if (20 <=? age) && (age <=? 40) then Some "20 to 40"
   else if (40 <? age) && (age <=? 60) then Some "40 to 60"
   else if 60 <? age then Some "> 60"
   else None)%Z.

(** [WHERE g."Age-Group" IS NOT NULL] *)
Fixpoint not_null (l : list (option string)) : list string :=
  match l with
  | [] => []
  | Some g :: t => g :: not_null t
  | None :: t => not_null t
  end.

(** The groups of [GROUP BY]: the distinct values. *)
Fixpoint distinct (l : list string) : list string :=
  match l with
  | [] => []
  | g :: t => if mem g t then distinct t else g :: distinct t
  end.

(** [COUNT(g."Age-Group")] within the group [g]. *)
Definition group_count (g : string) (l : list string) : nat :=
  List.length (filter (String.eqb g) l).

(** The [CASE] of [ORDER BY]; a NULL would sort last. *)
Definition group_rank (g : string) : nat :=
  if g =? "< 20" then 1
  else if g =? "20 to 40" then 2
  else if g =? "40 to 60" then 3
  else if g =? "> 60" then 4
  else 5.

Fixpoint insert_group (g : string) (l : list string) : list string :=
  match l with
  | [] => [g]
  | h :: t =>
      if (group_rank g <=? group_rank h)%nat then g :: l
      else h :: insert_group g t
  end.

Fixpoint order_by (l : list string) : list string :=
  match l with
  | [] => []
  | g :: t => insert_group g (order_by t)
  end.

(** [ROUND((count::decimal / total::decimal) * 100.0, 2)] in hundredths,
    for a count that is not negative and a positive total: halves round
    up. The quotient is kept to sixteen digits at least, so the result is
    that of the exact quotient for every table the serial key can
    number. *)
Definition percent (count total : Z) : Z :=
  ((2 * (count * 10000) + total) / (2 * total))%Z.

(** The rows of the result, in order. *)
Definition report (ages : list Z) : list (string * Z) :=
  let groups := not_null (map age_group ages) in
  let total := Z.of_nat (List.length ages) in
  map (fun g => (g, percent (Z.of_nat (group_count g groups)) total))
      (order_by (distinct groups)).

Definition group_labels : list string :=
  ["< 20"; "20 to 40"; "40 to 60"; "> 60"].

(** The ages of the table that fall in the range a label names. *)
Definition in_range (g : string) (age : Z) : bool :=
  if g =? "< 20" then (age <? 20)%Z
  else if g =? "20 to 40" then ((20 <=? age) && (age <=? 40))%Z
  else if g =? "40 to 60" then ((41 <=? age) && (age <=? 60))%Z
  else if g =? "> 60" then (61 <=? age)%Z
  else false.

Definition head_count (g : string) (ages : list Z) : nat :=
  List.length (filter (in_range g) ages).

Definition sum (l : list Z) : Z := fold_right Z.add 0%Z l.

(** The first segment of a header. *)
Definition first_segment (header : string) : string :=
  hd "" (split "." header).



Definition is_obj (v : value) : bool :=
  match v with
  | VObj _ => true
  | _ => false
  end.

(** *** Headers that fit together

    The paths of a header, as lists of segments: no segment is a name that
    [Object.prototype] defines, and no path continues another. *)
Definition plain_paths (H : list (list string)) : Prop :=
  forall h k, In h H -> In k h -> mem k object_proto = false.

Definition prefix_free (H : list (list string)) : Prop :=
  forall h rest, In h H -> In (h ++ rest) H -> rest = [].

(** The record holds nothing but what the paths [H] name: a value that is
    no mapping sits at one of the paths, a mapping on the way to one. *)
Definition fits (H : list (list string)) (obj : object) : Prop :=
  forall q x, reach obj q = Some x ->
              (is_obj x = false -> In q H)
              /\ exists rest, In (q ++ rest) H.

(** The two conditions as tests. *)
Fixpoint proper_prefix (h h' : list string) : bool :=
  match h, h' with
  | [], _ :: _ => true
  | k :: t, k' :: t' => (k =? k') && proper_prefix t t'
  | _, _ => false
  end.

Definition plain_pathsb (H : list (list string)) : bool :=
  forallb (forallb (fun k => negb (mem k object_proto))) H.

Definition prefix_freeb (H : list (list string)) : bool :=
  forallb (fun h => forallb (fun h' => negb (proper_prefix h h')) H) H.

(** The header line names paths that fit together. *)
Definition fitting (header : string) : bool :=
  let H := map (split ".") (split "," header) in
  plain_pathsb H && prefix_freeb H.

(** *** The console of the batch writer *)

(** The line [insertDataBatch] writes for the insert of [b], sent after [i]
    others, once the database has answered. *)
Definition console_of (db : nat -> list dbRow -> reply) (i : nat)
  (b : list dbRow) : console_line :=
  match db i b with
  | Inserted => Log (inserted_text (List.length b))
  | _ => Error error_text
  end.

(** The lines written for the inserts [a], numbered from [i]. *)
Fixpoint console (db : nat -> list dbRow -> reply) (i : nat)
  (a : list (list dbRow)) : list console_line :=
  match a with
  | [] => []
  | b :: a' => console_of db i b :: console db (S i) a'
  end.

(** The console holds one line for each insert sent, in order. *)
Definition announced (db : nat -> list dbRow -> reply) (s : store) : Prop :=
  logged s = console db 0 (attempts s).

(** The rows from [k * BATCH_SIZE] on, a batch of them at most. *)
Definition slice (k : nat) (rows : list dbRow) : list dbRow :=
  firstn BATCH_SIZE (skipn (k * BATCH_SIZE) rows).

(** The two paths part ways: at some place both have a segment, and the
    two segments differ. *)
Fixpoint apart (p q : list string) : bool :=
  match p, q with
  | a :: p', b :: q' => if a =? b then apart p' q' else true
  | _, _ => false
  end.

(** ** Own properties: reading after writing *)

Lemma get_put_same (ps : object) (k : string) (v : value) :
  get (put ps k v) k = Some v.
Proof.
  induction ps as [|[k' v'] t IH]; simpl.
  - now rewrite String.eqb_refl.
  - destruct (k' =? k) eqn:E; simpl.
    + now rewrite String.eqb_refl.
    + now rewrite E.
Qed.

Lemma get_put_other (ps : object) (k k' : string) (v : value) :
  k <> k' -> get (put ps k v) k' = get ps k'.
Proof.
  intros H. induction ps as [|[k0 v0] t IH]; simpl.
  - destruct (k =? k') eqn:E; [apply String.eqb_eq in E; contradiction|reflexivity].
  - destruct (k0 =? k) eqn:E; simpl.
    + apply String.eqb_eq in E. subst k0.
      destruct (k =? k') eqn:E'; [apply String.eqb_eq in E'; contradiction|reflexivity].
    + now rewrite IH.
Qed.

Lemma put_get_id (ps : object) (k : string) (v : value) :
  get ps k = Some v -> put ps k v = ps.
Proof.
  induction ps as [|[k' v'] t IH]; simpl; [discriminate|].
  destruct (k' =? k) eqn:E.
  - apply String.eqb_eq in E. intros H. injection H as H. now subst.
  - intros H. now rewrite IH.
Qed.

(** ** [split] *)

Lemma split_not_nil (c : ascii) (s : string) : split c s <> [].
Proof.
  destruct s as [|x s]; simpl; [discriminate|].
  destruct (Ascii.eqb x c); [discriminate|].
  destruct (split c s); discriminate.
Qed.

Lemma split_app_sep (c : ascii) (a b : string) :
  split c (a ++ String c b) = split c a ++ split c b.
Proof.
  induction a as [|x a IH]; simpl.
  - now rewrite Ascii.eqb_refl.
  - destruct (Ascii.eqb x c); [now rewrite IH|].
    rewrite IH. destruct (split c a) as [|h t] eqn:E; [|reflexivity].
    now apply split_not_nil in E.
Qed.

Lemma split_dotless (s : string) : dotless s = true -> split "." s = [s].
Proof.
  induction s as [|x s IH]; simpl; [reflexivity|].
  intros H. apply andb_true_iff in H as [Hx Hs].
  apply negb_true_iff in Hx. rewrite Hx, (IH Hs). reflexivity.
Qed.

Lemma split_join (ks : list string) :
  ks <> [] -> forallb dotless ks = true -> split "." (join ks) = ks.
Proof.
  induction ks as [|k ks IH]; [congruence|]. intros _ H.
  simpl in H. apply andb_true_iff in H as [Hk Hks].
  destruct ks as [|k' ks']; [now apply split_dotless|].
  change (join (k :: k' :: ks')) with (k ++ String "." (join (k' :: ks')))%string.
  rewrite split_app_sep, (split_dotless k Hk), IH; [reflexivity|discriminate|exact Hks].
Qed.

(** ** The assigner never stores an empty string or null *)

Lemma clean_put (ps : object) (k : string) (v : value) :
  clean_object ps = true -> clean v = true -> clean_object (put ps k v) = true.
Proof.
  unfold clean_object. intros Hps Hv.
  induction ps as [|[k' v'] t IH]; simpl in *.
  - now rewrite Hv.
  - apply andb_true_iff in Hps as [H1 H2].
    destruct (k' =? k); simpl.
    + now rewrite Hv, H2.
    + now rewrite H1, IH.
Qed.

Lemma clean_get (ps : object) (k : string) (v : value) :
  clean_object ps = true -> get ps k = Some v -> clean v = true.
Proof.
  unfold clean_object.
  induction ps as [|[k' v'] t IH]; simpl; [discriminate|].
  intros H. apply andb_true_iff in H as [H1 H2].
  destruct (k' =? k); [intros E; injection E as <-; exact H1 | now apply IH].
Qed.

Lemma assign_clean (current : object) (lastKey : string) (v : value) (r : object) :
  clean_object current = true -> clean v = true ->
  assign current lastKey v = Ok r -> clean_object r = true.
Proof.
  unfold assign. intros Hc Hv.
  destruct ((lastKey =? "__proto__") && negb (has current "__proto__")).
  - destruct v; intros E; try discriminate; injection E as <-; exact Hc.
  - intros E. injection E as <-. now apply clean_put.
Qed.

Lemma walk_clean (keys : list string) :
  forall (current : object) (lastKey : string) (v : value) (r : object),
    clean_object current = true -> clean v = true ->
    walk current keys lastKey v = Ok r -> clean_object r = true.
Proof.
  induction keys as [|key keys IH]; intros current lastKey v r Hc Hv; simpl.
  - now apply assign_clean.
  - assert (fresh : forall r', walk [] keys lastKey v = Ok r' ->
                               clean_object (put current key (VObj r')) = true).
    { intros r' E. apply clean_put; [exact Hc|]. now apply (IH [] lastKey v). }
    destruct (get current key) as [c|] eqn:G.
    + assert (Hcc : clean c = true) by exact (clean_get _ _ _ Hc G).
      destruct c as [| |s|n| |child|inf]; simpl;
        try (destruct (walk [] keys lastKey v) eqn:W; simpl; try discriminate;
             intros E; injection E as <-; now apply fresh).
      * destruct (negb (s =? "")).
        -- destruct (walk_primitive (VStr s) keys); simpl; try discriminate.
           intros E. now injection E as <-.
        -- destruct (walk [] keys lastKey v) eqn:W; simpl; try discriminate.
           intros E; injection E as <-; now apply fresh.
      * destruct (negb (n =? 0)%Z).
        -- destruct (walk_primitive (VNum n) keys); simpl; try discriminate.
           intros E. now injection E as <-.
        -- destruct (walk [] keys lastKey v) eqn:W; simpl; try discriminate.
           intros E; injection E as <-; now apply fresh.
      * destruct (walk child keys lastKey v) eqn:W; simpl; try discriminate.
        intros E. injection E as <-. apply clean_put; [exact Hc|].
        now apply (IH child lastKey v).
      * destruct (walk_primitive (VInf inf) keys); simpl; try discriminate.
        intros E. now injection E as <-.
    + destruct (mem key object_proto); [discriminate|].
      destruct (walk [] keys lastKey v) eqn:W; simpl; try discriminate.
      intros E; injection E as <-; now apply fresh.
Qed.

Lemma double_of_Z_number (n : Z) :
  (exists i, double_of_Z n = VNum i) \/ (exists b, double_of_Z n = VInf b).
Proof.
  unfold double_of_Z. cbv zeta.
  destruct (Z.abs n <? 2 ^ 53)%Z; [eauto|].
  match goal with |- context [(2 ^ 1024 <=? ?d)%Z] =>
    destruct (2 ^ 1024 <=? d)%Z end; eauto.
Qed.

Lemma parseInt10_clean (s : string) : clean (parseInt10 s) = true.
Proof.
  unfold parseInt10.
  destruct (sign_and_rest (trimStart s)) as [neg s2].
  destruct (digits s2 None) as [z|]; [|reflexivity].
  now destruct (double_of_Z_number (if neg then - z else z)%Z)
    as [[i ->]|[b ->]].
Qed.

Lemma setNestedProperty_clean (obj : object) (path : string)
  (values : list string) (index : nat) (r : object) :
  clean_object obj = true ->
  setNestedProperty obj path (value_at values index) = Ok r ->
  clean_object r = true.
Proof.
  intros Hc. unfold setNestedProperty, value_at, stored.
  destruct (nth_error values index) as [s|]; simpl.
  - destruct s as [|c s]; [intros E; now injection E as <-|].
    destruct (path =? "age"); simpl.
    + apply walk_clean; [exact Hc | apply parseInt10_clean].
    + now apply walk_clean.
  - rewrite andb_false_r. simpl. now apply walk_clean.
Qed.

Lemma forEach_clean (hs : list string) :
  forall (index : nat) (values : list string) (obj r : object),
    clean_object obj = true ->
    forEach hs index values obj = Ok r -> clean_object r = true.
Proof.
  induction hs as [|h hs IH]; intros index values obj r Hc; simpl.
  - intros E. now injection E as <-.
  - destruct (setNestedProperty obj h (value_at values index)) as [o| |] eqn:S;
      simpl; try discriminate.
    apply IH. exact (setNestedProperty_clean _ _ _ _ _ Hc S).
Qed.

(** C7. A call of [setNestedProperty] whose value is the empty string
    returns the record as it was; no record built from a line holds an
    empty string or null as a leaf; and with the header [age] an empty row
    value leaves the record without [age], which [transformForDb] turns into
    the integer 0. *)
Theorem empty_value_omitted (obj : object) (path : string)
  (hs values : list string) :
  setNestedProperty obj path (VStr "") = Ok obj
  /\ (forall r, forEach hs 0 values [] = Ok r -> clean (VObj r) = true)
  /\ forEach (split "," "age") 0 (split "," "") [] = Ok []
  /\ row_of_line (split "," "age") "" =
       Ok {| name := ""; age := VNum 0; address := VNull;
             additional_info := VObj [] |}.
Proof.
  repeat split.
  intros r E. exact (forEach_clean hs 0 values [] r eq_refl E).
Qed.

Lemma empty_value_omitted_witness :
  clean (VObj [("a", VStr "x"); ("c", VObj [("d", VStr "y")])]) = true.
Proof.
  apply (proj1 (proj2 (empty_value_omitted [] "" (split "," "a,b,c.d")
                         (split "," "x,,y")))).
  reflexivity.
Defined.

(** ** The catch-all bucket *)

Lemma get_rest_of (obj : object) (k : string) :
  get (rest_of obj) k =
  if mem k ["name"; "age"; "address"] then None else get obj k.
Proof.
  unfold rest_of.
  induction obj as [|[k' v'] t IH]; simpl.
  - now destruct (mem k _).
  - destruct (k' =? k) eqn:E.
    + apply String.eqb_eq in E. subst k'.
      destruct (mem k ["name"; "age"; "address"]) eqn:M; simpl.
      * exact IH.
      * now rewrite String.eqb_refl.
    + destruct (mem k' ["name"; "age"; "address"]); simpl; [exact IH|].
      now rewrite E.
Qed.

Lemma rest_of_nil (obj : object) :
  (forall k, has obj k = true -> mem k ["name"; "age"; "address"] = true) ->
  rest_of obj = [].
Proof.
  unfold rest_of, has.
  induction obj as [|[k' v'] t IH]; intros H; simpl; [reflexivity|].
  assert (Hk : mem k' ["name"; "age"; "address"] = true).
  { apply H. simpl. now rewrite String.eqb_refl. }
  rewrite Hk. simpl. apply IH. intros k Hg. apply H. simpl.
  destruct (k' =? k) eqn:E; [reflexivity|exact Hg].
Qed.

(** C1. In the row [transformForDb] returns, [additional_info] is always
    the object of the remaining top-level properties, each with the value
    it had, and never null: for a record whose keys all lie in
    {name, age, address} it is the empty object. *)
Theorem additional_info_never_null (obj : object) (r : dbRow) :
  transformForDb obj = Ok r ->
  additional_info r = VObj (rest_of obj)
  /\ additional_info r <> VNull
  /\ (forall k, mem k ["name"; "age"; "address"] = false ->
                get (rest_of obj) k = get obj k)
  /\ (forall k, mem k ["name"; "age"; "address"] = true ->
                get (rest_of obj) k = None)
  /\ ((forall k, has obj k = true -> mem k ["name"; "age"; "address"] = true) ->
      additional_info r = VObj []).
Proof.
  unfold transformForDb. intros H.
  destruct (ToString _) as [f| |]; simpl in H; try discriminate.
  destruct (ToString _) as [l| |]; simpl in H; try discriminate.
  injection H as <-. simpl. unfold or_else. simpl.
  repeat split.
  - discriminate.
  - intros k M. now rewrite get_rest_of, M.
  - intros k M. now rewrite get_rest_of, M.
  - intros Hk. now rewrite (rest_of_nil obj Hk).
Qed.

Lemma additional_info_never_null_witness :
  exists r,
    row_of_line (split "," "name.firstName,name.lastName,age") "Ann,Lee,34" = Ok r
    /\ additional_info r = VObj [] /\ additional_info r <> VNull.
Proof.
  eexists. split; [reflexivity|].
  pose proof (additional_info_never_null
                [("name", VObj [("firstName", VStr "Ann"); ("lastName", VStr "Lee")]);
                 ("age", VNum 34)] _ eq_refl) as H.
  split; [exact (proj1 H) | exact (proj1 (proj2 H))].
Defined.

(** ** Lines shorter or longer than the header *)

(** C2. A line with fewer values than the header has columns passes
    undefined to [setNestedProperty], which creates the intermediate mapping
    and stores undefined: with the header
    [name.firstName,address.city,hobby] the line [Ann] gives an [address]
    that is an object and an [additional_info] with the key [hobby], where
    the line [Ann,,] gives a null [address] and an empty
    [additional_info]. *)
Theorem short_line_stores_undefined :
  let hs := split "," "name.firstName,address.city,hobby" in
  forEach hs 0 (split "," "Ann") [] =
    Ok [("name", VObj [("firstName", VStr "Ann")]);
        ("address", VObj [("city", VUndef)]); ("hobby", VUndef)]
  /\ forEach hs 0 (split "," "Ann,,") [] =
    Ok [("name", VObj [("firstName", VStr "Ann")])]
  /\ row_of_line hs "Ann" =
    Ok {| name := "Ann"; age := VNum 0;
          address := VObj [("city", VUndef)];
          additional_info := VObj [("hobby", VUndef)] |}
  /\ row_of_line hs "Ann,," =
    Ok {| name := "Ann"; age := VNum 0; address := VNull;
          additional_info := VObj [] |}.
Proof. repeat split. Qed.

Lemma value_at_app (values extra : list string) (index : nat) :
  index < List.length values ->
  value_at (values ++ extra) index = value_at values index.
Proof.
  intros H. unfold value_at. now rewrite nth_error_app1.
Qed.

Lemma value_at_firstn (values : list string) (n index : nat) :
  index < n -> value_at (firstn n values) index = value_at values index.
Proof.
  intros H. unfold value_at. now rewrite nth_error_firstn, (proj2 (Nat.ltb_lt _ _) H).
Qed.

(** The loop reads [values] only at the indices of the header. *)
Lemma forEach_ext (hs : list string) :
  forall (index : nat) (values values' : list string) (obj : object),
    (forall i, index <= i < index + List.length hs ->
               value_at values i = value_at values' i) ->
    forEach hs index values obj = forEach hs index values' obj.
Proof.
  induction hs as [|h hs IH]; intros index values values' obj H; simpl;
    [reflexivity|].
  rewrite (H index) by (simpl; lia).
  destruct (setNestedProperty obj h (value_at values' index)); simpl;
    try reflexivity.
  apply IH. intros i Hi. apply H. simpl. lia.
Qed.

(** C10. When a line has at least as many values as the header has
    columns, the values beyond the header count play no part: the record
    built, and the row made from it, are those of the first values
    alone. *)
Theorem extra_values_ignored (hs values extra : list string)
  (line tail : string) (obj : object) :
  List.length hs <= List.length values ->
  List.length hs <= List.length (split "," line) ->
  forEach hs 0 (values ++ extra) obj = forEach hs 0 values obj
  /\ forEach hs 0 values obj = forEach hs 0 (firstn (List.length hs) values) obj
  /\ row_of_line hs (line ++ String "," tail) = row_of_line hs line.
Proof.
  intros Hv Hl. repeat split.
  - apply forEach_ext. intros i Hi. apply value_at_app. lia.
  - apply forEach_ext. intros i Hi. symmetry. apply value_at_firstn. lia.
  - unfold row_of_line. rewrite split_app_sep.
    rewrite (forEach_ext hs 0 (split "," line ++ split "," tail) (split "," line));
      [reflexivity|].
    intros i Hi. apply value_at_app. lia.
Qed.

Lemma extra_values_ignored_witness :
  row_of_line (split "," "name.firstName,age") "Ann,34,Paris,chess" =
  row_of_line (split "," "name.firstName,age") "Ann,34".
Proof.
  apply (extra_values_ignored (split "," "name.firstName,age")
           ["Ann"; "34"] ["Paris"; "chess"] "Ann,34" "Paris,chess" []).
  - simpl. lia.
  - simpl. lia.
Defined.

(** ** A leaf on the path *)

Lemma reach_not_nil (obj : object) (ks : list string) (leaf : value) :
  reach obj ks = Some leaf -> ks <> [].
Proof. destruct ks; simpl; [discriminate|discriminate]. Qed.

(** The leaf is the last thing the loop reaches: the final write is lost. *)
Lemma walk_leaf_kept (ks : list string) :
  forall (obj : object) (leaf : value) (lastKey : string) (v : value),
    reach obj ks = Some leaf -> is_primitive leaf = true ->
    truthy leaf = true -> walk obj ks lastKey v = Ok obj.
Proof.
  induction ks as [|k ks IH]; intros obj leaf lastKey v R P T;
    [discriminate|].
  destruct ks as [|k' ks'].
  - simpl in R. simpl. rewrite R.
    destruct leaf; try discriminate; now rewrite T.
  - change (reach obj (k :: k' :: ks'))
      with (match get obj k with
            | Some (VObj child) => reach child (k' :: ks')
            | _ => None
            end) in R.
    change (walk obj (k :: k' :: ks') lastKey v)
      with (match get obj k with
            | Some (VObj child) =>
                r <- walk child (k' :: ks') lastKey v ;;
                Ok (put obj k (VObj r))
            | Some c =>
                if truthy c
                then u <- walk_primitive c (k' :: ks') ;; Ok obj
                else r <- walk [] (k' :: ks') lastKey v ;;
                     Ok (put obj k (VObj r))
            | None =>
                if mem k object_proto then Escapes
                else r <- walk [] (k' :: ks') lastKey v ;;
                     Ok (put obj k (VObj r))
            end).
    destruct (get obj k) as [[| | | | |child|]|] eqn:G; try discriminate.
    rewrite (IH child leaf lastKey v R P T). simpl.
    now rewrite (put_get_id obj k (VObj child) G).
Qed.

(** A further segment follows the leaf: the next access throws. *)
Lemma walk_leaf_throws (ks : list string) :
  forall (obj : object) (leaf : value) (m : string) (rest : list string)
         (lastKey : string) (v : value),
    reach obj ks = Some leaf -> is_primitive leaf = true ->
    truthy leaf = true -> inherited leaf m = false ->
    walk obj (ks ++ m :: rest) lastKey v = Throw TypeError.
Proof.
  induction ks as [|k ks IH]; intros obj leaf m rest lastKey v R P T I;
    [discriminate|].
  destruct ks as [|k' ks'].
  - simpl in R. simpl. rewrite R.
    destruct leaf; try discriminate; rewrite T; simpl in *; now rewrite I.
  - change (reach obj (k :: k' :: ks'))
      with (match get obj k with
            | Some (VObj child) => reach child (k' :: ks')
            | _ => None
            end) in R.
    change (walk obj ((k :: k' :: ks') ++ m :: rest) lastKey v)
      with (match get obj k with
            | Some (VObj child) =>
                r <- walk child ((k' :: ks') ++ m :: rest) lastKey v ;;
                Ok (put obj k (VObj r))
            | Some c =>
                if truthy c
                then u <- walk_primitive c ((k' :: ks') ++ m :: rest) ;; Ok obj
                else r <- walk [] ((k' :: ks') ++ m :: rest) lastKey v ;;
                     Ok (put obj k (VObj r))
            | None =>
                if mem k object_proto then Escapes
                else r <- walk [] ((k' :: ks') ++ m :: rest) lastKey v ;;
                     Ok (put obj k (VObj r))
            end).
    destruct (get obj k) as [[| | | | |child|]|] eqn:G; try discriminate.
    now rewrite (IH child leaf m rest lastKey v R P T I).
Qed.

Lemma join_not_age (ks : list string) :
  forallb dotless ks = true -> 2 <= List.length ks -> (join ks =? "age") = false.
Proof.
  intros D L. apply String.eqb_neq. intros E.
  assert (S : split "." (join ks) = ks).
  { apply split_join; [destruct ks; [simpl in L; lia|discriminate]|exact D]. }
  rewrite E in S. simpl in S. subst ks. simpl in L. lia.
Qed.

(** The call on a path given by its segments. *)
Lemma setNestedProperty_join (obj : object) (ks : list string)
  (lastKey : string) (v : value) :
  ks <> [] -> forallb dotless ks = true -> dotless lastKey = true ->
  is_empty_string v = false ->
  setNestedProperty obj (join (ks ++ [lastKey])) v = walk obj ks lastKey v.
Proof.
  intros N D DL E. unfold setNestedProperty, stored. rewrite E.
  assert (D' : forallb dotless (ks ++ [lastKey]) = true).
  { rewrite forallb_app, D. simpl. now rewrite DL. }
  rewrite join_not_age;
    [|exact D'|rewrite length_app; simpl; destruct ks; [congruence|simpl; lia]].
  rewrite split_join; [|now destruct ks|exact D'].
  simpl. now rewrite removelast_last, last_last.
Qed.

(** C3, as the code has it. When following the segments [ks] of a path
    through the record ends on a truthy leaf (a non-empty string or a
    non-zero integer), the call raises no error for an ill-formed record:
    if only the last segment follows, it returns, the record is unchanged
    and the value is dropped; if more segments follow and the runtime
    defines no property of the leaf under the next one, it throws a
    TypeError. *)
Theorem leaf_on_the_path (obj : object) (ks : list string) (leaf : value)
  (lastKey : string) (v : value) :
  reach obj ks = Some leaf -> is_primitive leaf = true ->
  truthy leaf = true ->
  forallb dotless ks = true -> dotless lastKey = true ->
  is_empty_string v = false ->
  setNestedProperty obj (join (ks ++ [lastKey])) v = Ok obj
  /\ forall (m : string) (rest : list string),
       inherited leaf m = false -> forallb dotless (m :: rest) = true ->
       setNestedProperty obj (join (ks ++ (m :: rest) ++ [lastKey])) v =
       Throw TypeError.
Proof.
  intros R P T D DL E. pose proof (reach_not_nil _ _ _ R) as N. split.
  - rewrite setNestedProperty_join by assumption.
    exact (walk_leaf_kept ks obj leaf lastKey v R P T).
  - intros m rest I DM.
    rewrite app_assoc, setNestedProperty_join;
      [|now destruct ks|now rewrite forallb_app, D|exact DL|exact E].
    exact (walk_leaf_throws ks obj leaf m rest lastKey v R P T I).
Qed.

Lemma leaf_on_the_path_witness :
  setNestedProperty [("a", VStr "x")] "a.b" (VStr "y") = Ok [("a", VStr "x")]
  /\ setNestedProperty [("a", VStr "x")] "a.b.c" (VStr "y") = Throw TypeError.
Proof.
  split.
  - apply (proj1 (leaf_on_the_path [("a", VStr "x")] ["a"] (VStr "x") "b"
                    (VStr "y") eq_refl eq_refl eq_refl eq_refl eq_refl eq_refl)).
  - apply (proj2 (leaf_on_the_path [("a", VStr "x")] ["a"] (VStr "x") "c"
                    (VStr "y") eq_refl eq_refl eq_refl eq_refl eq_refl eq_refl)
                 "b" []); reflexivity.
Defined.

(** C3, as stated, fails: with the header [a,a.b] and the row [x,y] the
    second call finds the string [x] under [a], raises nothing and returns;
    the value [y] is dropped and the record is as before. *)
Lemma leaf_write_is_silent :
  reach [("a", VStr "x")] ["a"] = Some (VStr "x")
  /\ setNestedProperty [("a", VStr "x")] "a.b" (VStr "y") = Ok [("a", VStr "x")]
  /\ (forall e, setNestedProperty [("a", VStr "x")] "a.b" (VStr "y") <> Throw e)
  /\ forEach (split "," "a,a.b") 0 (split "," "x,y") [] = Ok [("a", VStr "x")].
Proof. repeat split. intros e. discriminate. Qed.

(** ** [parseInt] reads decimal numerals *)



Lemma uint_value_acc (d : Decimal.uint) :
  forall acc, Zpos (Pos.of_uint_acc d acc) = uint_value d (Zpos acc).
Proof.
  induction d; intros acc; cbn [Pos.of_uint_acc uint_value];
    try reflexivity; rewrite IHd; f_equal; lia.
Qed.

Lemma uint_value_of_uint (d : Decimal.uint) :
  Z.of_N (Pos.of_uint d) = uint_value d 0.
Proof.
  induction d; cbn [Pos.of_uint uint_value Z.of_N]; try reflexivity;
    try exact IHd; apply uint_value_acc.
Qed.



Lemma parseInt10_number (s : string) :
  parseInt10 s = VNaN \/ (exists i, parseInt10 s = VNum i)
  \/ (exists b, parseInt10 s = VInf b).
Proof.
  unfold parseInt10. destruct (sign_and_rest (trimStart s)) as [neg s2].
  destruct (digits s2 None) as [z|]; [right|now left].
  apply double_of_Z_number.
Qed.

(** Up to 2^53 in magnitude an integer is its own double. *)
Lemma double_of_Z_safe (n : Z) :
  (Z.abs n <= 2 ^ 53)%Z -> double_of_Z n = VNum n.
Proof.
  intros B. unfold double_of_Z. cbv zeta.
  destruct (Z.ltb_spec (Z.abs n) (2 ^ 53)); [reflexivity|].
  change (2 ^ 53)%Z with 9007199254740992%Z in *.
  assert (E : n = 9007199254740992%Z \/ n = (- 9007199254740992)%Z) by lia.
  destruct E as [-> | ->]; reflexivity.
Qed.



(** ** What the final write stores *)

Lemma stored_age (s : string) :
  s <> "" -> stored "age" (VStr s) = Ok (parseInt10 s).
Proof.
  intros N. unfold stored. simpl.
  destruct s; [congruence|reflexivity].
Qed.

Lemma stored_other (path : string) (v : value) :
  path <> "age" -> stored path v = Ok v.
Proof.
  intros N. unfold stored.
  now rewrite (proj2 (String.eqb_neq path "age") N).
Qed.



Lemma is_empty_string_VStr (s : string) :
  s <> "" -> is_empty_string (VStr s) = false.
Proof. destruct s; [congruence|reflexivity]. Qed.


(** ** The shape of a row *)

Lemma ToString_shown (v : value) :
  printable v = true -> ToString (or_else v (VStr "")) = Ok (shown v).
Proof.
  unfold or_else. destruct v as [| |s|n| |ps|inf]; simpl; try reflexivity.
  - now destruct s.
  - now destruct (n =? 0)%Z.
  - intros H. apply negb_true_iff in H. now rewrite H.
Qed.

Lemma or_else_not_null (v : value) :
  or_else v (VNum 0) <> VNull /\ or_else v (VNum 0) <> VUndef.
Proof. unfold or_else. destruct v; simpl; split; try discriminate;
       destruct (negb _); discriminate. Qed.

(** C9, as the code has it. For a record whose [name.firstName] and
    [name.lastName] can be turned into strings (strings, absent, numbers
    below 10^21 or mappings without a key [toString]), [transformForDb]
    returns a row
    whose [name] is the two joined by one space and trimmed (empty when
    both are absent) and whose [age] is neither null nor undefined. The
    [age] is [age || 0]: 0 when the record holds under [age] nothing,
    undefined, not-a-number or 0, and otherwise what the record holds
    there, passed through unchanged, be it a number, an infinity, a string
    or a mapping. So it is an integer when the record holds a finite number
    or nothing, and after the path [age] has stored a text it is the number
    [parseInt] read, 0 for not-a-number. The row is a function of the
    record, and its [name], [age] and [address] of the record's properties
    of these names alone. *)
Theorem transform_shape (obj : object) :
  let firstName := member (get_or_undef obj "name") "firstName" in
  let lastName := member (get_or_undef obj "name") "lastName" in
  legible firstName = true -> legible lastName = true ->
  exists r,
    transformForDb obj = Ok r
    /\ name r = trim (shown firstName ++ " " ++ shown lastName)
    /\ (forall a b, firstName = VStr a -> lastName = VStr b ->
                    name r = trim (a ++ " " ++ b))
    /\ (firstName = VUndef -> lastName = VUndef -> name r = "")
    /\ age r <> VNull /\ age r <> VUndef
    /\ age r = (if truthy (get_or_undef obj "age")
                then get_or_undef obj "age" else VNum 0)
    /\ (age_finite obj = true -> exists n, age r = VNum n)
    /\ (get obj "age" = None -> age r = VNum 0)
    /\ (get obj "age" = Some VNaN -> age r = VNum 0)
    /\ (forall m, get obj "age" = Some (VObj m) -> age r = VObj m)
    /\ (forall b, get obj "age" = Some (VInf b) -> age r = VInf b)
    /\ (forall s, s <> "" -> get obj "age" = Some (VStr s) -> age r = VStr s)
    /\ (forall n, n <> 0%Z -> get obj "age" = Some (VNum n) -> age r = VNum n)
    /\ (forall rec s, s <> "" ->
          setNestedProperty rec "age" (VStr s) = Ok obj ->
          age r = match parseInt10 s with
                  | VNaN => VNum 0
                  | x => x
                  end
          /\ ((exists n, age r = VNum n) \/ (exists b, age r = VInf b)))
    /\ (forall r', transformForDb obj = Ok r' -> r' = r)
    /\ (forall obj',
          get obj' "name" = get obj "name" -> get obj' "age" = get obj "age" ->
          get obj' "address" = get obj "address" ->
          exists r', transformForDb obj' = Ok r' /\ name r' = name r
                     /\ age r' = age r /\ address r' = address r).
Proof.
  intros firstName lastName Lf Ll.
  apply andb_true_iff in Lf as [Lf _]. apply andb_true_iff in Ll as [Ll _].
  assert (E : forall o,
             get o "name" = get obj "name" ->
             transformForDb o =
             Ok {| name := trim (shown firstName ++ " " ++ shown lastName);
                   age := or_else (get_or_undef o "age") (VNum 0);
                   address := or_else (get_or_undef o "address") VNull;
                   additional_info := or_else (VObj (rest_of o)) VNull |}).
  { intros o G. unfold transformForDb.
    replace (get_or_undef o "name") with (get_or_undef obj "name")
      by (unfold get_or_undef; now rewrite G).
    fold firstName lastName.
    now rewrite (ToString_shown _ Lf), (ToString_shown _ Ll). }
  assert (A : forall x, get obj "age" = Some x -> truthy x = true ->
                        or_else (get_or_undef obj "age") (VNum 0) = x).
  { intros x G T. unfold or_else, get_or_undef. now rewrite G, T. }
  eexists. split; [exact (E obj eq_refl)|]. cbn [name age address].
  split; [reflexivity|]. split; [intros a b -> ->; reflexivity|].
  split; [intros -> ->; reflexivity|].
  split; [apply or_else_not_null|]. split; [apply or_else_not_null|].
  split; [reflexivity|].
  split.
  { unfold age_finite, get_or_undef, or_else.
    destruct (get obj "age") as [[| | |n| | |]|]; try discriminate; intros _;
      simpl; eauto.
    destruct (negb (n =? 0)%Z); eauto. }
  split; [unfold get_or_undef, or_else; now intros ->|].
  split; [unfold get_or_undef, or_else; now intros ->|].
  split; [intros m G; now apply A|].
  split; [intros b G; now apply A|].
  split.
  { intros s N G. apply A; [exact G|]. simpl. apply negb_true_iff.
    now apply String.eqb_neq. }
  split.
  { intros n N G. apply A; [exact G|]. simpl. apply negb_true_iff.
    now apply Z.eqb_neq. }
  split.
  { intros rec s N S. unfold setNestedProperty in S.
    rewrite (is_empty_string_VStr s N), (stored_age s N) in S. simpl in S.
    injection S as S.
    assert (G : get obj "age" = Some (parseInt10 s))
      by (rewrite <- S; apply get_put_same).
    unfold or_else, get_or_undef. rewrite G.
    destruct (parseInt10_number s) as [->|[[i ->]|[b ->]]]; simpl.
    - split; [reflexivity|left; eauto].
    - destruct (Z.eqb_spec i 0) as [->|Ni]; simpl; split; try reflexivity;
        left; eauto.
    - split; [reflexivity|right; eauto]. }
  split; [intros r' E'; rewrite (E obj eq_refl) in E'; now injection E' as <-|].
  intros obj' Gn Ga Gd. eexists. split; [exact (E obj' Gn)|].
  cbn [name age address]. unfold get_or_undef. now rewrite Ga, Gd.
Qed.

Lemma transform_shape_witness :
  exists r,
    transformForDb [("name", VObj [("firstName", VStr "Ann")]); ("age", VNum 34)]
    = Ok r /\ name r = "Ann" /\ age r = VNum 34.
Proof.
  destruct (transform_shape
              [("name", VObj [("firstName", VStr "Ann")]); ("age", VNum 34)]
              eq_refl eq_refl) as (r & E & Hn & _ & _ & _ & _ & Ha & _).
  exists r. split; [exact E|]. split; [exact Hn|exact Ha].
Defined.

(** C9, as stated, fails: with the header [age.x] the record holds a
    mapping under [age], and the row's [age] is that mapping, not an
    integer. *)
Lemma age_can_be_a_mapping :
  forEach (split "," "age.x") 0 (split "," "5") [] =
    Ok [("age", VObj [("x", VStr "5")])]
  /\ row_of_line (split "," "age.x") "5" =
    Ok {| name := ""; age := VObj [("x", VStr "5")]; address := VNull;
          additional_info := VObj [] |}
  /\ (forall r, row_of_line (split "," "age.x") "5" = Ok r ->
                forall n, age r <> VNum n).
Proof.
  repeat split. intros r E n. injection E as <-. discriminate.
Qed.

(** ** The driver *)

Section Batches.

Variable db : nat -> list dbRow -> reply.
Hypothesis connects : forall i b, db i b <> ConnectFails.

Lemma insertDataBatch_answered (b : list dbRow) (s : store) :
  b <> [] -> insertDataBatch db b s = Ok (answered db s b).
Proof.
  intros N. unfold insertDataBatch, answered.
  destruct b as [|r b]; [congruence|].
  pose proof (connects (List.length (attempts s)) (r :: b)) as C.
  destruct (db (List.length (attempts s)) (r :: b)); try congruence.
  now rewrite app_nil_r.
Qed.

Variable hs : list string.

Lemma on_line_row (b : list dbRow) (s : store) (line : string) (r : dbRow) :
  builds hs line r ->
  on_line db (at_row hs b s) line =
  if (BATCH_SIZE <=? List.length (b ++ [r]))%nat
  then s' <- insertDataBatch db (b ++ [r]) s ;; Ok (at_row hs [] s')
  else Ok (at_row hs (b ++ [r]) s).
Proof.
  intros Hr. unfold builds in Hr. unfold on_line, at_row.
  cbn [isFirstLine headers batch users]. rewrite Hr. reflexivity.
Qed.

(** Below capacity the rows gather in the batch and nothing is sent. *)
Lemma for_await_fill (lines : list string) (rows : list dbRow) :
  Forall2 (builds hs) lines rows ->
  forall (b : list dbRow) (s : store),
    List.length b + List.length rows < BATCH_SIZE ->
    for_await db lines (at_row hs b s) = Finished (at_row hs (b ++ rows) s).
Proof.
  induction 1 as [|line r lines rows Hr _ IH]; intros b s L.
  - simpl. now rewrite app_nil_r.
  - simpl in L. cbn [for_await]. rewrite (on_line_row b s line r Hr).
    assert (F : (BATCH_SIZE <=? List.length (b ++ [r]))%nat = false).
    { apply Nat.leb_gt. rewrite length_app. simpl. lia. }
    rewrite F.
    rewrite IH by (rewrite length_app; simpl; lia).
    now rewrite <- app_assoc.
Qed.

(** The row that fills the batch has it sent, and the batch restarts. *)
Lemma for_await_flush (lines : list string) (rows : list dbRow) :
  Forall2 (builds hs) lines rows ->
  forall (b : list dbRow) (s : store),
    rows <> [] ->
    List.length b + List.length rows = BATCH_SIZE ->
    for_await db lines (at_row hs b s) =
    Finished (at_row hs [] (answered db s (b ++ rows))).
Proof.
  induction 1 as [|line r lines rows Hr Hrs IH]; intros b s N L;
    [congruence|].
  simpl in L. cbn [for_await]. rewrite (on_line_row b s line r Hr).
  destruct rows as [|r' rows].
  - inversion Hrs; subst.
    assert (F : (BATCH_SIZE <=? List.length (b ++ [r]))%nat = true).
    { apply Nat.leb_le. rewrite length_app. simpl in *. lia. }
    rewrite F, insertDataBatch_answered by (destruct b; discriminate).
    reflexivity.
  - assert (F : (BATCH_SIZE <=? List.length (b ++ [r]))%nat = false).
    { apply Nat.leb_gt. rewrite length_app. simpl in *. lia. }
    rewrite F.
    rewrite IH; [now rewrite <- app_assoc|discriminate|].
    rewrite length_app. simpl in *. lia.
Qed.

Lemma for_await_app (l1 l2 : list string) :
  forall st,
    for_await db (l1 ++ l2) st =
    match for_await db l1 st with
    | Finished st' => for_await db l2 st'
    | e => e
    end.
Proof.
  induction l1 as [|l l1 IH]; intros st; simpl; [reflexivity|].
  destruct (on_line db st l); [apply IH|reflexivity|reflexivity].
Qed.

(** Two full batches and a rest: three inserts, in the order of the
    rows. *)
Lemma for_await_three (l1 l2 l3 : list string) (r1 r2 r3 : list dbRow)
  (s : store) :
  Forall2 (builds hs) l1 r1 -> Forall2 (builds hs) l2 r2 ->
  Forall2 (builds hs) l3 r3 ->
  List.length r1 = BATCH_SIZE -> List.length r2 = BATCH_SIZE ->
  List.length r3 < BATCH_SIZE ->
  for_await db (l1 ++ l2 ++ l3) (at_row hs [] s) =
  Finished (at_row hs r3 (answered db (answered db s r1) r2)).
Proof.
  intros F1 F2 F3 L1 L2 L3.
  assert (P : 0 < BATCH_SIZE) by (unfold BATCH_SIZE; lia).
  rewrite for_await_app, (for_await_flush l1 r1 F1 [] s);
    [|intros ->; simpl in L1; lia|simpl; lia].
  rewrite for_await_app, (for_await_flush l2 r2 F2 [] _);
    [|intros ->; simpl in L2; lia|simpl; lia].
  rewrite (for_await_fill l3 r3 F3 [] _) by (simpl; lia).
  reflexivity.
Qed.

End Batches.

Lemma firstn_app_exact {A : Type} (n : nat) (l1 l2 : list A) :
  List.length l1 = n -> firstn n (l1 ++ l2) = l1.
Proof.
  intros <-. rewrite firstn_app, Nat.sub_diag, firstn_all. simpl.
  apply app_nil_r.
Qed.

Lemma skipn_app_exact {A : Type} (n : nat) (l1 l2 : list A) :
  List.length l1 = n -> skipn n (l1 ++ l2) = l2.
Proof.
  intros <-. rewrite skipn_app, Nat.sub_diag, skipn_all. reflexivity.
Qed.

(** C5. With 2500 data lines after the header, each of which builds a row,
    and a database that can be reached, the run sends exactly three inserts,
    of 1000, 1000 and 500 rows, which are the rows in the order of the
    lines, and answers 200. *)
Theorem batches_of_2500 (db : nat -> list dbRow -> reply) (header : string)
  (lines : list string) (rows : list dbRow) :
  List.length lines = 2500 ->
  Forall2 (builds (split "," header)) lines rows ->
  (forall i b, db i b <> ConnectFails) ->
  exists s,
    upload db (header :: lines) = Some (Status200, s)
    /\ attempts s =
       [firstn 1000 rows; firstn 1000 (skipn 1000 rows); skipn 2000 rows]
    /\ map (@List.length dbRow) (attempts s) = [1000; 1000; 500]
    /\ List.concat (attempts s) = rows.
Proof.
  intros L F C.
  pose proof (firstn_skipn 1000 lines) as E1.
  pose proof (firstn_skipn 1000 (skipn 1000 lines)) as E2.
  assert (N1 : List.length (firstn 1000 lines) = 1000)
    by (rewrite length_firstn; lia).
  assert (N2 : List.length (firstn 1000 (skipn 1000 lines)) = 1000)
    by (rewrite length_firstn, length_skipn; lia).
  assert (N3 : List.length (skipn 1000 (skipn 1000 lines)) = 500)
    by (rewrite !length_skipn; lia).
  remember (firstn 1000 lines) as l1 eqn:D1.
  remember (firstn 1000 (skipn 1000 lines)) as l2 eqn:D2.
  remember (skipn 1000 (skipn 1000 lines)) as l3 eqn:D3.
  clear D1 D2 D3. rewrite <- E2 in E1. subst lines. clear E2 L.
  apply Forall2_app_inv_l in F as (r1 & r23 & F1 & F23 & ->).
  apply Forall2_app_inv_l in F23 as (r2 & r3 & F2 & F3 & ->).
  pose proof (Forall2_length F1) as M1.
  pose proof (Forall2_length F2) as M2.
  pose proof (Forall2_length F3) as M3.
  rewrite N1 in M1. rewrite N2 in M2. rewrite N3 in M3.
  exists (answered db (answered db (answered db empty_store r1) r2) r3).
  split; [|split; [|split]].
  - unfold upload. cbn [for_await].
    change (on_line db start header)
      with (Ok (at_row (split "," header) [] empty_store)).
    cbv beta iota.
    rewrite (for_await_three db C (split "," header) l1 l2 l3 r1 r2 r3
               empty_store F1 F2 F3)
      by (unfold BATCH_SIZE; lia).
    unfold final_flush, at_row. cbn [batch users].
    destruct r3 as [|x r3]; [simpl in M3; lia|].
    cbn [List.length Nat.ltb Nat.leb].
    now rewrite insertDataBatch_answered.
  - cbn [answered attempts empty_store app].
    rewrite (firstn_app_exact 1000 r1) by lia.
    rewrite (skipn_app_exact 1000 r1) by lia.
    rewrite (firstn_app_exact 1000 r2) by lia.
    rewrite app_assoc, (skipn_app_exact 2000 (r1 ++ r2))
      by (rewrite length_app; lia).
    reflexivity.
  - cbn [answered attempts empty_store app map]. now rewrite <- M1, <- M2, <- M3.
  - cbn [answered attempts empty_store app List.concat]. now rewrite app_nil_r.
Qed.

Lemma Forall2_repeat {A B : Type} (R : A -> B -> Prop) (a : A) (b : B) (n : nat) :
  R a b -> Forall2 R (repeat a n) (repeat b n).
Proof. intros H. induction n; simpl; constructor; assumption. Qed.

Lemma batches_of_2500_witness :
  exists s,
    upload accepting ("name.firstName,age" :: repeat "A,15" 2500) =
      Some (Status200, s)
    /\ map (@List.length dbRow) (attempts s) = [1000; 1000; 500].
Proof.
  destruct (batches_of_2500 accepting "name.firstName,age"
              (repeat "A,15" 2500)
              (repeat {| name := "A"; age := VNum 15; address := VNull;
                         additional_info := VObj [] |} 2500))
    as (s & E & _ & M & _).
  - apply repeat_length.
  - apply Forall2_repeat. reflexivity.
  - intros i b. discriminate.
  - exists s. split; assumption.
Defined.

(** ** A failed insert does not stop the run *)

Lemma landed_app (db : nat -> list dbRow -> reply) (a a' : list (list dbRow)) :
  forall i, landed db i (a ++ a') =
            landed db i a ++ landed db (i + List.length a) a'.
Proof.
  induction a as [|b a IH]; intros i; simpl.
  - now rewrite Nat.add_0_r.
  - now rewrite IH, <- app_assoc, Nat.add_succ_r.
Qed.

Section Absorbed.

Variable db : nat -> list dbRow -> reply.
Hypothesis connects : forall i b, db i b <> ConnectFails.

Lemma answered_accounted (s : store) (b : list dbRow) :
  accounted db s -> accounted db (answered db s b).
Proof.
  unfold accounted, answered. cbn [attempts persisted]. intros ->.
  rewrite landed_app. simpl. now rewrite app_nil_r.
Qed.

Lemma insertDataBatch_accounted (b : list dbRow) (s t : store) :
  accounted db s -> insertDataBatch db b s = Ok t -> accounted db t.
Proof.
  intros A. destruct b as [|r b]; [intros E; now injection E as <-|].
  rewrite (insertDataBatch_answered db connects) by discriminate.
  intros E. injection E as <-. now apply answered_accounted.
Qed.

Lemma insertDataBatch_alike (b : list dbRow) (s s' : store) :
  attempts s = attempts s' ->
  exists t t',
    insertDataBatch db b s = Ok t /\ insertDataBatch accepting b s' = Ok t'
    /\ attempts t = attempts t'.
Proof.
  intros E. destruct b as [|r b]; [now exists s, s'|].
  exists (answered db s (r :: b)), (answered accepting s' (r :: b)).
  rewrite !insertDataBatch_answered by (discriminate || assumption).
  cbn [answered attempts]. now rewrite E.
Qed.

Lemma on_line_alike (st st' : loop) (line : string) :
  alike st st' ->
  match on_line db st line, on_line accepting st' line with
  | Ok a, Ok a' => alike a a'
  | Throw e, Throw e' => e = e'
  | Escapes, Escapes => True
  | _, _ => False
  end.
Proof.
  destruct st as [h f b s], st' as [h' f' b' s'].
  unfold alike. cbn [headers isFirstLine batch users].
  intros (<- & <- & <- & E). unfold on_line.
  cbn [headers isFirstLine batch users].
  destruct f; [cbn [headers isFirstLine batch users]; auto|].
  destruct (row_of_line h line) as [r|e|]; cbn [bind]; auto.
  destruct (BATCH_SIZE <=? List.length (b ++ [r]))%nat.
  - destruct (insertDataBatch_alike (b ++ [r]) s s' E) as (t & t' & -> & -> & Et).
    cbn [bind headers isFirstLine batch users]. auto.
  - cbn [headers isFirstLine batch users]. auto.
Qed.

Lemma on_line_accounted (st a : loop) (line : string) :
  accounted db (users st) -> on_line db st line = Ok a ->
  accounted db (users a).
Proof.
  intros A. unfold on_line.
  destruct (isFirstLine st); [intros E; now injection E as <-|].
  destruct (row_of_line (headers st) line) as [r|e|]; cbn [bind];
    try discriminate.
  destruct (BATCH_SIZE <=? List.length (batch st ++ [r]))%nat.
  - destruct (insertDataBatch db (batch st ++ [r]) (users st)) as [t|e|] eqn:I;
      cbn [bind]; try discriminate.
    intros E. injection E as <-. cbn [users].
    exact (insertDataBatch_accounted _ _ _ A I).
  - intros E. now injection E as <-.
Qed.

Lemma for_await_alike (lines : list string) :
  forall st st',
    alike st st' ->
    match for_await db lines st, for_await accepting lines st' with
    | Finished a, Finished a' => alike a a'
    | Caught e s, Caught e' s' => e = e' /\ attempts s = attempts s'
    | Untracked, Untracked => True
    | _, _ => False
    end.
Proof.
  induction lines as [|line lines IH]; intros st st' A; cbn [for_await];
    [exact A|].
  pose proof (on_line_alike st st' line A) as H.
  destruct (on_line db st line) as [a|e|],
           (on_line accepting st' line) as [a'|e'|]; try contradiction.
  - now apply IH.
  - split; [exact H|apply A].
  - exact I.
Qed.

Lemma for_await_accounted (lines : list string) :
  forall st,
    accounted db (users st) ->
    match for_await db lines st with
    | Finished a => accounted db (users a)
    | Caught _ s => accounted db s
    | Untracked => True
    end.
Proof.
  induction lines as [|line lines IH]; intros st A; cbn [for_await];
    [exact A|].
  destruct (on_line db st line) as [a|e|] eqn:O; [|exact A|exact I].
  apply IH. exact (on_line_accounted st a line A O).
Qed.

End Absorbed.

(** Whatever inserts the database rejects, as long as it can be reached,
    the run sends the response and the inserts, in number, content and
    order, of a run in which every insert is accepted. *)
Lemma upload_alike (db : nat -> list dbRow -> reply) (lines : list string) :
  (forall i b, db i b <> ConnectFails) ->
  same_inserts (upload db lines) (upload accepting lines).
Proof.
  intros C. unfold same_inserts, upload.
  assert (A0 : alike start start) by (repeat split).
  pose proof (for_await_alike db C lines start start A0) as H.
  destruct (for_await db lines start) as [a|e s|],
           (for_await accepting lines start) as [a'|e' s'|];
    try contradiction; [|split; [reflexivity|apply H]|exact I].
  destruct H as (_ & _ & Eb & Ea). unfold final_flush. rewrite <- Eb.
  destruct (0 <? List.length (batch a))%nat; [|now split].
  destruct (insertDataBatch_alike db C (batch a) (users a) (users a') Ea)
    as (t & t' & -> & -> & Et).
  now split.
Qed.

(** The table then holds the rows of the accepted inserts. *)
Lemma upload_accounted (db : nat -> list dbRow -> reply) (lines : list string) :
  (forall i b, db i b <> ConnectFails) ->
  forall resp s, upload db lines = Some (resp, s) -> accounted db s.
Proof.
  intros C resp s. unfold upload.
  assert (A0 : accounted db (users start)) by reflexivity.
  pose proof (for_await_accounted db C lines start A0) as H.
  destruct (for_await db lines start) as [a|e s0|]; [| |discriminate].
  - unfold final_flush.
    destruct (0 <? List.length (batch a))%nat.
    + destruct (insertDataBatch db (batch a) (users a)) as [t|e|] eqn:I;
        try discriminate.
      * intros E. injection E as _ <-.
        exact (insertDataBatch_accounted db C _ _ _ H I).
      * intros E. now injection E as _ <-.
    + intros E. now injection E as _ <-.
  - intros E. now injection E as _ <-.
Qed.

(** The second of three inserts fails: the third is still sent, and the
    table holds the rows of the first and the third. *)
Example second_insert_fails :
  match upload second_fails ("name.firstName,age" :: repeat "A,15" 2500) with
  | Some (resp, s) =>
      resp = Status200
      /\ map (@List.length dbRow) (attempts s) = [1000; 1000; 500]
      /\ List.length (persisted s) = 1500
  | None => False
  end.
Proof. vm_compute. repeat split. Qed.

(** * Further properties of the code *)

(** ** Splitting a line and joining it again *)

Lemma split_cons (sep : ascii) (s : string) :
  exists h t, split sep s = h :: t.
Proof.
  destruct (split sep s) as [|h t] eqn:E; [now apply split_not_nil in E|eauto].
Qed.

Lemma join_with_cons (sep : ascii) (s : string) (l : list string) :
  l <> [] -> join_with sep (s :: l) = (s ++ String sep (join_with sep l))%string.
Proof. destruct l; [congruence|reflexivity]. Qed.

Lemma join_with_split (sep : ascii) (s : string) :
  join_with sep (split sep s) = s.
Proof.
  induction s as [|c s IH]; [reflexivity|]. simpl.
  destruct (Ascii.eqb c sep) eqn:E.
  - apply Ascii.eqb_eq in E. subst c.
    rewrite join_with_cons by apply split_not_nil. simpl. now rewrite IH.
  - destruct (split_cons sep s) as (h & t & S). rewrite S in *.
    destruct t as [|h' t]; simpl in *; now rewrite <- IH.
Qed.

Lemma count_char_split (sep : ascii) (s : string) :
  List.length (split sep s) = S (count_char sep s).
Proof.
  induction s as [|c s IH]; [reflexivity|]. simpl.
  destruct (Ascii.eqb c sep); simpl; [now rewrite IH|].
  destruct (split_cons sep s) as (h & t & S). rewrite S in *. exact IH.
Qed.

Lemma split_pieces (sep : ascii) (s : string) :
  Forall (fun p => count_char sep p = 0) (split sep s).
Proof.
  induction s as [|c s IH]; simpl; [now constructor|].
  destruct (Ascii.eqb c sep) eqn:E; [now constructor|].
  destruct (split_cons sep s) as (h & t & S). rewrite S in *.
  inversion IH; subst. constructor; [simpl; now rewrite E|assumption].
Qed.

Lemma split_piece (sep : ascii) (s : string) :
  count_char sep s = 0 -> split sep s = [s].
Proof.
  induction s as [|c s IH]; simpl; [reflexivity|].
  destruct (Ascii.eqb c sep); [discriminate|]. intros H.
  now rewrite (IH H).
Qed.

Lemma split_join_with (sep : ascii) (l : list string) :
  l <> [] -> Forall (fun p => count_char sep p = 0) l ->
  split sep (join_with sep l) = l.
Proof.
  induction l as [|p l IH]; [congruence|]. intros _ F.
  inversion F as [|? ? Hp Hl]; subst.
  destruct l as [|q l]; [now apply split_piece|].
  rewrite join_with_cons by discriminate.
  rewrite split_app_sep, (split_piece sep p Hp), IH;
    [reflexivity|discriminate|exact Hl].
Qed.

(** X1. Splitting a line at a separator loses nothing: joining the pieces
    with the separator gives the line back, no piece contains the
    separator, and there is one piece more than there are separators in the
    line. Conversely a non-empty list of pieces without the separator is
    what splitting their join gives. *)
Theorem split_round_trip (sep : ascii) (line : string) (pieces : list string) :
  pieces <> [] -> Forall (fun p => count_char sep p = 0) pieces ->
  join_with sep (split sep line) = line
  /\ Forall (fun p => count_char sep p = 0) (split sep line)
  /\ List.length (split sep line) = S (count_char sep line)
  /\ split sep (join_with sep pieces) = pieces.
Proof.
  intros N F. split; [apply join_with_split|].
  split; [apply split_pieces|]. split; [apply count_char_split|].
  now apply split_join_with.
Qed.

Lemma split_round_trip_witness :
  join_with "," (split "," "name.firstName,,age") = "name.firstName,,age"
  /\ split "," (join_with "," ["a"; ""; "b"]) = ["a"; ""; "b"].
Proof.
  destruct (split_round_trip "," "name.firstName,,age" ["a"; ""; "b"])
    as (H1 & _ & _ & H4).
  - discriminate.
  - repeat constructor.
  - split; [exact H1|exact H4].
Defined.

(** ** What a call of the assigner changes *)

(** A call that returns has either left [current] alone or written its
    property named by the first segment. *)
Lemma walk_shape (current : object) (ks : list string) (lastKey : string)
  (v : value) (r : object) :
  walk current ks lastKey v = Ok r ->
  r = current \/ exists x, r = put current (hd lastKey ks) x.
Proof.
  destruct ks as [|k ks]; simpl.
  - unfold assign.
    destruct ((lastKey =? "__proto__") && negb (has current "__proto__")).
    + destruct v; intros E; try discriminate; injection E as <-; now left.
    + intros E. injection E as <-. right. eauto.
  - destruct (get current k) as [[| |s|n| |child|inf]|];
      try (destruct (walk [] ks lastKey v); simpl; try discriminate;
           intros E; injection E as <-; right; eauto).
    + simpl. destruct (negb (s =? "")).
      * destruct (walk_primitive _ ks); simpl; try discriminate.
        intros E. injection E as <-. now left.
      * destruct (walk [] ks lastKey v); simpl; try discriminate.
        intros E; injection E as <-; right; eauto.
    + simpl. destruct (negb (n =? 0)%Z).
      * destruct (walk_primitive _ ks); simpl; try discriminate.
        intros E. injection E as <-. now left.
      * destruct (walk [] ks lastKey v); simpl; try discriminate.
        intros E; injection E as <-; right; eauto.
    + destruct (walk child ks lastKey v); simpl; try discriminate.
      intros E; injection E as <-; right; eauto.
    + simpl. destruct (walk_primitive _ ks); simpl; try discriminate.
      intros E. injection E as <-. now left.
    + destruct (mem k object_proto); [discriminate|].
      destruct (walk [] ks lastKey v); simpl; try discriminate.
      intros E; injection E as <-; right; eauto.
Qed.

Lemma hd_removelast (ks : list string) (d : string) :
  ks <> [] -> hd (last ks d) (removelast ks) = hd d ks.
Proof.
  destruct ks as [|k [|k' ks]]; [congruence|reflexivity|reflexivity].
Qed.

Lemma setNestedProperty_shape (obj : object) (path : string) (v : value)
  (r : object) :
  setNestedProperty obj path v = Ok r ->
  r = obj \/ exists x, r = put obj (hd "" (split "." path)) x.
Proof.
  unfold setNestedProperty.
  destruct (is_empty_string v); [intros E; injection E as <-; now left|].
  destruct (stored path v) as [x| |]; simpl; try discriminate.
  intros W. apply walk_shape in W.
  now rewrite hd_removelast in W by apply split_not_nil.
Qed.

(** X2. A call that returns changes at most the top-level property named
    by the first segment of its path: every other property is there or not
    as before, with the value it had, and the property of the first
    segment, if the record had it, is not removed. *)
Theorem other_properties_kept (obj : object) (path : string) (v : value)
  (r : object) :
  setNestedProperty obj path v = Ok r ->
  let first := hd "" (split "." path) in
  (forall k, k <> first -> get r k = get obj k)
  /\ (has obj first = true -> has r first = true).
Proof.
  intros S first. apply setNestedProperty_shape in S as [->|[x ->]].
  - split; [reflexivity|trivial].
  - fold first. split.
    + intros k N. apply get_put_other. congruence.
    + intros _. unfold has. now rewrite get_put_same.
Qed.

Lemma other_properties_kept_witness :
  get [("name", VObj [("firstName", VStr "Ann")]); ("address", VObj [("city", VStr "Paris")])]
      "name" = Some (VObj [("firstName", VStr "Ann")]).
Proof.
  apply (proj1 (other_properties_kept
                  [("name", VObj [("firstName", VStr "Ann")])]
                  "address.city" (VStr "Paris") _ eq_refl) "name").
  discriminate.
Defined.

(** ** Reading back what a call wrote *)

Lemma reach_cons (obj : object) (k : string) (ks : list string) (child : object) :
  ks <> [] -> get obj k = Some (VObj child) ->
  reach obj (k :: ks) = reach child ks.
Proof.
  intros N G. destruct ks as [|k' ks]; [congruence|]. simpl. now rewrite G.
Qed.

Lemma walk_reach (ks : list string) :
  forall (current : object) (lastKey : string) (v : value) (r : object),
    (lastKey =? "__proto__") = false ->
    walk current ks lastKey v = Ok r ->
    if blocked current ks then r = current
    else reach r (ks ++ [lastKey]) = Some v.
Proof.
  induction ks as [|k ks IH]; intros current lastKey v r P; simpl.
  - unfold assign. rewrite P. simpl. intros E. injection E as <-.
    apply get_put_same.
  - assert (N : ks ++ [lastKey] <> []) by (now destruct ks).
    assert (fresh : forall r', walk [] ks lastKey v = Ok r' ->
              reach (put current k (VObj r')) (k :: ks ++ [lastKey]) = Some v).
    { intros r' W. rewrite (reach_cons _ k _ r' N (get_put_same current k (VObj r'))).
      pose proof (IH [] lastKey v r' P W) as H.
      now replace (blocked [] ks) with false in H by (now destruct ks). }
    destruct (get current k) as [[| |s|n| |child|inf]|] eqn:G;
      try (simpl; destruct (walk [] ks lastKey v) eqn:W; simpl;
           try discriminate; intros E; injection E as <-; now apply fresh).
    + simpl. destruct (negb (s =? "")).
      * destruct (walk_primitive _ ks); simpl; try discriminate.
        intros E. now injection E as <-.
      * destruct (walk [] ks lastKey v) eqn:W; simpl; try discriminate.
        intros E; injection E as <-; now apply fresh.
    + simpl. destruct (negb (n =? 0)%Z).
      * destruct (walk_primitive _ ks); simpl; try discriminate.
        intros E. now injection E as <-.
      * destruct (walk [] ks lastKey v) eqn:W; simpl; try discriminate.
        intros E; injection E as <-; now apply fresh.
    + destruct (walk child ks lastKey v) as [r'| |] eqn:W; simpl;
        try discriminate.
      intros E. injection E as <-.
      pose proof (IH child lastKey v r' P W) as H.
      destruct (blocked child ks).
      * subst r'. now apply put_get_id.
      * change (reach (put current k (VObj r')) (k :: (ks ++ [lastKey])) = Some v).
        now rewrite (reach_cons _ k _ r' N (get_put_same current k (VObj r'))).
    + simpl. destruct (walk_primitive _ ks); simpl; try discriminate.
      intros E. now injection E as <-.
    + destruct (mem k object_proto); [discriminate|].
      destruct (walk [] ks lastKey v) eqn:W; simpl; try discriminate.
      intros E; injection E as <-; now apply fresh.
Qed.

(** X3. After a call that returns, following the path from the record
    finds the value the call stores (the parsed integer for the path [age],
    the raw value otherwise), whatever the record held there before;
    unless a truthy value that is no mapping sits on the way, in which case
    the record is exactly as it was. *)
Theorem written_value_is_found (obj : object) (path : string) (v x : value)
  (r : object) :
  is_empty_string v = false ->
  last (split "." path) "" <> "__proto__" ->
  stored path v = Ok x ->
  setNestedProperty obj path v = Ok r ->
  if blocked obj (removelast (split "." path)) then r = obj
  else reach r (split "." path) = Some x.
Proof.
  intros E P S. unfold setNestedProperty. rewrite E, S. simpl. intros W.
  apply walk_reach in W; [|now apply String.eqb_neq].
  now rewrite <- app_removelast_last in W by apply split_not_nil.
Qed.

Lemma written_value_is_found_witness :
  reach [("age", VObj [("x", VStr "y")])] ["age"; "x"] = Some (VStr "y")
  /\ reach [("a", VNum 7); ("age", VNum 34)] ["age"] = Some (VNum 34).
Proof.
  assert (N : forall a b : string, (a =? b) = false -> a <> b)
    by (intros a b; apply String.eqb_neq).
  split.
  - apply (written_value_is_found [("age", VNum 0)] "age.x" (VStr "y")
             (VStr "y") _ eq_refl (N "x" "__proto__" eq_refl) eq_refl eq_refl).
  - apply (written_value_is_found [("a", VNum 7)] "age" (VStr "34")
             (VNum 34) _ eq_refl (N "age" "__proto__" eq_refl) eq_refl eq_refl).
Defined.

(** ** Every row is sent once, in order *)

Lemma landed_accepted (db : nat -> list dbRow -> reply) (a : list (list dbRow)) :
  (forall i b, db i b = Inserted) ->
  forall i, landed db i a = List.concat a.
Proof.
  intros H. induction a as [|b a IH]; intros i; simpl; [reflexivity|].
  now rewrite H, IH.
Qed.

Section Rows.

Variable db : nat -> list dbRow -> reply.
Variable hs : list string.

(** The loop over lines that build rows, when the database can be
    reached: what has been sent and what waits in the batch make up the
    rows so far. *)
Lemma for_await_rows (lines : list string) (rows : list dbRow) :
  (forall i b, db i b <> ConnectFails) ->
  Forall2 (builds hs) lines rows ->
  forall (b : list dbRow) (s : store),
    List.length b < BATCH_SIZE ->
    exists full b' s',
      for_await db lines (at_row hs b s) = Finished (at_row hs b' s')
      /\ attempts s' = attempts s ++ full
      /\ full_batches full
      /\ List.length b' < BATCH_SIZE
      /\ List.concat full ++ b' = b ++ rows.
Proof.
  intros C. induction 1 as [|line r lines rows Hr _ IH]; intros b s L.
  - exists [], b, s. simpl. rewrite !app_nil_r.
    repeat split; [constructor|exact L].
  - cbn [for_await]. rewrite (on_line_row db hs b s line r Hr).
    destruct (BATCH_SIZE <=? List.length (b ++ [r]))%nat eqn:F.
    + apply Nat.leb_le in F. rewrite length_app in F. simpl in F.
      rewrite (insertDataBatch_answered db C) by (now destruct b).
      cbn [bind].
      destruct (IH [] (answered db s (b ++ [r]))) as (full & b' & s' & E & A & U & L' & Q);
        [unfold BATCH_SIZE; simpl; lia|].
      exists ((b ++ [r]) :: full), b', s'. split; [exact E|].
      split; [rewrite A; cbn [answered attempts]; now rewrite <- app_assoc|].
      split; [constructor; [rewrite length_app; simpl; lia|exact U]|].
      split; [exact L'|]. simpl. rewrite <- !app_assoc. simpl in Q. now rewrite Q.
    + apply Nat.leb_gt in F.
      destruct (IH (b ++ [r]) s F) as (full & b' & s' & E & A & U & L' & Q).
      exists full, b', s'. repeat split; try assumption.
      now rewrite Q, <- app_assoc.
Qed.

(** The same loop when no connection can be had: it gathers rows until the
    batch is full and is then left by the rejection. *)
Lemma for_await_refused (lines : list string) (rows : list dbRow) :
  (forall i b, db i b = ConnectFails) ->
  Forall2 (builds hs) lines rows ->
  forall (b : list dbRow) (s : store),
    List.length b < BATCH_SIZE ->
    (List.length b + List.length rows < BATCH_SIZE
     /\ for_await db lines (at_row hs b s) = Finished (at_row hs (b ++ rows) s))
    \/ for_await db lines (at_row hs b s) = Caught ConnectError s.
Proof.
  intros C. induction 1 as [|line r lines rows Hr _ IH]; intros b s L.
  - left. simpl. rewrite app_nil_r. split; [lia|reflexivity].
  - cbn [for_await]. rewrite (on_line_row db hs b s line r Hr).
    destruct (BATCH_SIZE <=? List.length (b ++ [r]))%nat eqn:F.
    + right. unfold insertDataBatch.
      destruct (b ++ [r]) as [|x y] eqn:E; [now destruct b|].
      now rewrite C.
    + apply Nat.leb_gt in F.
      destruct (IH (b ++ [r]) s F) as [[L' E]|E].
      * left. rewrite length_app in L'. simpl in *.
        split; [lia|]. now rewrite E, <- app_assoc.
      * now right.
Qed.

End Rows.

Lemma upload_rows (db : nat -> list dbRow -> reply) (header : string)
  (lines : list string) (rows : list dbRow) :
  (forall i b, db i b <> ConnectFails) ->
  Forall2 (builds (split "," header)) lines rows ->
  exists s full rest,
    upload db (header :: lines) = Some (Status200, s)
    /\ attempts s = full ++ final_insert rest
    /\ full_batches full
    /\ List.length rest < BATCH_SIZE
    /\ List.concat (attempts s) = rows
    /\ List.length (List.concat (attempts s)) = List.length lines
    /\ ((forall i b, db i b = Inserted) -> persisted s = rows).
Proof.
  intros C F.
  destruct (for_await_rows db (split "," header) lines rows C F [] empty_store)
    as (full & rest & s' & E & A & U & L & Q);
    [unfold BATCH_SIZE; simpl; lia|].
  simpl in A, Q.
  pose proof (for_await_accounted db C lines
                (at_row (split "," header) [] empty_store) eq_refl) as Acc.
  rewrite E in Acc. cbn [users at_row] in Acc.
  assert (U' : upload db (header :: lines) =
               match final_flush db (at_row (split "," header) rest s') with
               | Ok s => Some (Status200, s)
               | Throw _ => Some (Status500, s')
               | Escapes => None
               end).
  { unfold upload. cbn [for_await].
    change (on_line db start header)
      with (Ok (at_row (split "," header) [] empty_store)).
    cbv beta iota. now rewrite E. }
  destruct rest as [|x rest].
  - exists s', full, []. rewrite U'. simpl. rewrite app_nil_r in *.
    split; [reflexivity|]. split; [exact A|]. split; [exact U|].
    split; [exact L|]. rewrite A, Q.
    split; [reflexivity|]. split; [symmetry; exact (Forall2_length F)|].
    intros H. unfold accounted in Acc.
    now rewrite Acc, (landed_accepted db _ H), A.
  - exists (answered db s' (x :: rest)), full, (x :: rest). rewrite U'.
    unfold final_flush. cbn [batch users at_row List.length Nat.ltb Nat.leb].
    rewrite (insertDataBatch_answered db C) by discriminate.
    assert (Cc : List.concat (attempts (answered db s' (x :: rest))) = rows).
    { cbn [answered attempts]. rewrite A, concat_app. simpl.
      now rewrite app_nil_r. }
    split; [reflexivity|]. split; [cbn [answered attempts]; now rewrite A|].
    split; [exact U|]. split; [exact L|]. split; [exact Cc|].
    split; [rewrite Cc; symmetry; exact (Forall2_length F)|].
    intros H. pose proof (answered_accounted db s' (x :: rest) Acc) as Acc'.
    unfold accounted in Acc'.
    now rewrite Acc', (landed_accepted db _ H).
Qed.



(** X5. When a data line makes the row loop throw, the run answers 500 at
    that line: the lines after it are not read, the inserts sent so far are
    full batches of the rows before it, in order, and the rows gathered
    since the last insert, fewer than a batch, are never sent. *)
Theorem throwing_line_aborts (db : nat -> list dbRow -> reply)
  (header bad : string) (good later : list string) (rows : list dbRow)
  (e : exn) :
  (forall i b, db i b <> ConnectFails) ->
  Forall2 (builds (split "," header)) good rows ->
  row_of_line (split "," header) bad = Throw e ->
  exists s lost,
    upload db (header :: good ++ bad :: later) = Some (Status500, s)
    /\ full_batches (attempts s)
    /\ List.length lost < BATCH_SIZE
    /\ List.concat (attempts s) ++ lost = rows
    /\ accounted db s.
Proof.
  intros C F B.
  destruct (for_await_rows db (split "," header) good rows C F [] empty_store)
    as (full & lost & s' & E & A & U & L & Q);
    [unfold BATCH_SIZE; simpl; lia|].
  simpl in A, Q.
  pose proof (for_await_accounted db C good
                (at_row (split "," header) [] empty_store) eq_refl) as Acc.
  rewrite E in Acc. cbn [users at_row] in Acc.
  exists s', lost. split.
  - unfold upload. cbn [for_await].
    change (on_line db start header)
      with (Ok (at_row (split "," header) [] empty_store)).
    cbv beta iota. rewrite for_await_app, E. cbn [for_await].
    unfold on_line at 1. cbn [isFirstLine at_row headers]. rewrite B.
    reflexivity.
  - rewrite A. repeat split; assumption.
Qed.

Lemma throwing_line_aborts_witness :
  exists s,
    upload accepting ["a,a.b.c"; "x,"; "x,y"; "x,"] = Some (Status500, s)
    /\ full_batches (attempts s).
Proof.
  destruct (throwing_line_aborts accepting "a,a.b.c" "x,y" ["x,"] ["x,"]
              [{| name := ""; age := VNum 0; address := VNull;
                  additional_info := VObj [("a", VStr "x")] |}] TypeError)
    as (s & lost & E & U & _).
  - intros i b. discriminate.
  - repeat constructor.
  - reflexivity.
  - exists s. split; [exact E|exact U].
Defined.

(** X6. When no connection to the database can be had, a run with at least
    one data line, each building a row, answers 500 and nothing is sent or
    stored; a file that is empty or holds only the header line answers 200
    without any insert, whatever the database. *)
Theorem unreachable_database (db : nat -> list dbRow -> reply)
  (header : string) (lines : list string) (rows : list dbRow) :
  (forall i b, db i b = ConnectFails) ->
  Forall2 (builds (split "," header)) lines rows ->
  lines <> [] ->
  upload db (header :: lines) = Some (Status500, empty_store)
  /\ (forall db', upload db' [header] = Some (Status200, empty_store))
  /\ (forall db', upload db' [] = Some (Status200, empty_store)).
Proof.
  intros C F N. split; [|split; reflexivity].
  unfold upload. cbn [for_await].
  change (on_line db start header)
    with (Ok (at_row (split "," header) [] empty_store)).
  cbv beta iota.
  destruct (for_await_refused db (split "," header) lines rows C F [] empty_store)
    as [[L E]|E]; [unfold BATCH_SIZE; simpl; lia| |now rewrite E].
  rewrite E. unfold final_flush. cbn [batch users at_row app].
  destruct rows as [|r rows].
  - inversion F. congruence.
  - cbn [List.length Nat.ltb Nat.leb insertDataBatch]. now rewrite C.
Qed.

Lemma unreachable_database_witness :
  upload (fun _ _ => ConnectFails) ["name.firstName,age"; "A,15"] =
    Some (Status500, empty_store).
Proof.
  apply (unreachable_database (fun _ _ => ConnectFails) "name.firstName,age"
           ["A,15"]
           [{| name := "A"; age := VNum 15; address := VNull;
               additional_info := VObj [] |}]).
  - reflexivity.
  - repeat constructor.
  - discriminate.
Defined.

(** ** The name is trimmed *)

Lemma list_ascii_app (a b : string) :
  list_ascii_of_string (a ++ b) =
  list_ascii_of_string a ++ list_ascii_of_string b.
Proof. induction a as [|c a IH]; simpl; [reflexivity|now rewrite IH]. Qed.

Lemma string_of_list_app (l1 l2 : list ascii) :
  string_of_list_ascii (l1 ++ l2) =
  (string_of_list_ascii l1 ++ string_of_list_ascii l2)%string.
Proof. induction l1 as [|c l1 IH]; simpl; [reflexivity|now rewrite IH]. Qed.

Lemma rev_string_involutive (s : string) : rev_string (rev_string s) = s.
Proof.
  unfold rev_string.
  now rewrite list_ascii_of_string_of_list_ascii, rev_involutive,
    string_of_list_ascii_of_string.
Qed.

Lemma rev_string_app (a b : string) :
  rev_string (a ++ b) = (rev_string b ++ rev_string a)%string.
Proof.
  unfold rev_string. now rewrite list_ascii_app, rev_app_distr, string_of_list_app.
Qed.

Lemma string_app_nil_r (s : string) : (s ++ "")%string = s.
Proof. induction s as [|c s IH]; simpl; [reflexivity|now rewrite IH]. Qed.

Lemma string_app_assoc (a b c : string) :
  ((a ++ b) ++ c)%string = (a ++ b ++ c)%string.
Proof. induction a as [|x a IH]; simpl; [reflexivity|now rewrite IH]. Qed.

Lemma starts_ws_app (a b : string) :
  a <> "" -> starts_ws (a ++ b) = starts_ws a.
Proof. destruct a; [congruence|reflexivity]. Qed.

Lemma all_ws_app (a b : string) :
  all_ws (a ++ b) = all_ws a && all_ws b.
Proof.
  induction a as [|c a IH]; simpl; [reflexivity|].
  now rewrite IH, andb_assoc.
Qed.

Lemma all_ws_rev (s : string) : all_ws (rev_string s) = all_ws s.
Proof.
  induction s as [|c s IH]; [reflexivity|].
  change (String c s) with ((String c "") ++ s)%string.
  rewrite rev_string_app, !all_ws_app, IH. simpl.
  now rewrite andb_comm.
Qed.

Lemma trimStart_spec (s : string) :
  exists pre, s = (pre ++ trimStart s)%string /\ all_ws pre = true
              /\ starts_ws (trimStart s) = false.
Proof.
  induction s as [|c s (pre & E & A & S)]; simpl.
  - now exists "".
  - destruct (is_ws c) eqn:W.
    + exists (String c pre). simpl. rewrite W, A. now rewrite <- E.
    + exists "". simpl. now rewrite W.
Qed.

Lemma trimStart_id (s : string) : starts_ws s = false -> trimStart s = s.
Proof. destruct s as [|c s]; simpl; [reflexivity|now intros ->]. Qed.

Lemma trimStart_all_ws (w s : string) :
  all_ws w = true -> trimStart (w ++ s) = trimStart s.
Proof.
  induction w as [|c w IH]; simpl; [reflexivity|].
  intros H. apply andb_true_iff in H as [Hc Hw]. now rewrite Hc, IH.
Qed.

Lemma trimEnd_spec (s : string) :
  exists post, s = (trimEnd s ++ post)%string /\ all_ws post = true
               /\ ends_ws (trimEnd s) = false.
Proof.
  destruct (trimStart_spec (rev_string s)) as (pre & E & A & S).
  exists (rev_string pre). unfold trimEnd, ends_ws.
  rewrite rev_string_involutive, all_ws_rev. repeat split; try assumption.
  rewrite <- rev_string_app, <- E. symmetry. apply rev_string_involutive.
Qed.

Lemma trimEnd_id (s : string) : ends_ws s = false -> trimEnd s = s.
Proof.
  unfold ends_ws, trimEnd. intros H.
  now rewrite (trimStart_id _ H), rev_string_involutive.
Qed.

(** [trim] removes white space from the two ends and nothing else. *)
Lemma trim_spec (s : string) :
  exists pre post,
    s = (pre ++ trim s ++ post)%string
    /\ all_ws pre = true /\ all_ws post = true
    /\ starts_ws (trim s) = false /\ ends_ws (trim s) = false.
Proof.
  destruct (trimStart_spec s) as (pre & E & A & S).
  destruct (trimEnd_spec (trimStart s)) as (post & E' & A' & S').
  exists pre, post. unfold trim. repeat split; try assumption.
  - now rewrite <- E', <- E.
  - destruct (trimEnd (trimStart s)) as [|c t] eqn:T; [reflexivity|].
    rewrite E' in S. exact S.
Qed.

Lemma trim_id (s : string) :
  starts_ws s = false -> ends_ws s = false -> trim s = s.
Proof.
  intros H1 H2. unfold trim. rewrite (trimStart_id s H1). now apply trimEnd_id.
Qed.

Lemma tidy_spec (s : string) :
  tidy s = true -> s <> "" /\ starts_ws s = false /\ ends_ws s = false.
Proof.
  unfold tidy. intros H.
  apply andb_true_iff in H as [H H3]. apply andb_true_iff in H as [H1 H2].
  apply negb_true_iff in H1, H2, H3. apply String.eqb_neq in H1. auto.
Qed.

Lemma rev_string_not_empty (s : string) : s <> "" -> rev_string s <> "".
Proof.
  intros N E. apply N. rewrite <- (rev_string_involutive s), E. reflexivity.
Qed.

Lemma trim_both (a b : string) :
  tidy a = true -> tidy b = true ->
  trim (a ++ " " ++ b) = (a ++ " " ++ b)%string.
Proof.
  intros Ha Hb. apply tidy_spec in Ha as (Na & Sa & _).
  apply tidy_spec in Hb as (Nb & _ & Eb).
  apply trim_id.
  - now rewrite starts_ws_app.
  - unfold ends_ws in *. rewrite rev_string_app.
    change (" " ++ b)%string with ((String " " "") ++ b)%string.
    rewrite rev_string_app, string_app_assoc, starts_ws_app;
      [exact Eb|now apply rev_string_not_empty].
Qed.

Lemma trim_first_only (a : string) :
  tidy a = true -> trim (a ++ " " ++ "") = a.
Proof.
  intros Ha. apply tidy_spec in Ha as (Na & Sa & Ea).
  unfold trim. rewrite trimStart_id by (now rewrite starts_ws_app).
  unfold trimEnd. rewrite rev_string_app.
  change (rev_string (" " ++ ""))%string with " ".
  change (" " ++ rev_string a)%string with (String " " (rev_string a)).
  cbn [trimStart]. change (is_ws " ") with true. cbv iota.
  unfold ends_ws in Ea. now rewrite (trimStart_id _ Ea), rev_string_involutive.
Qed.

Lemma trim_last_only (b : string) :
  tidy b = true -> trim ("" ++ " " ++ b) = b.
Proof.
  intros Hb. apply tidy_spec in Hb as (Nb & Sb & Eb).
  unfold trim. change ("" ++ " " ++ b)%string with (String " " b).
  cbn [trimStart]. change (is_ws " ") with true. cbv iota.
  rewrite (trimStart_id _ Sb). now apply trimEnd_id.
Qed.

Lemma ToString_falsy (v : value) :
  truthy v = false -> ToString (or_else v (VStr "")) = Ok "".
Proof. unfold or_else. now intros ->. Qed.

(** X7. The [name] of a row never starts or ends with white space. When
    both first and last name are strings that are not empty and have no
    white space at their ends, it is the two with one space between; when
    one of them is absent or empty, it is the other alone, without the
    space. *)
Theorem name_is_trimmed (obj : object) (r : dbRow) :
  transformForDb obj = Ok r ->
  let firstName := member (get_or_undef obj "name") "firstName" in
  let lastName := member (get_or_undef obj "name") "lastName" in
  starts_ws (name r) = false /\ ends_ws (name r) = false
  /\ (forall a b, firstName = VStr a -> lastName = VStr b ->
                  tidy a = true -> tidy b = true ->
                  name r = (a ++ " " ++ b)%string)
  /\ (forall a, firstName = VStr a -> truthy lastName = false ->
                tidy a = true -> name r = a)
  /\ (forall b, truthy firstName = false -> lastName = VStr b ->
                tidy b = true -> name r = b).
Proof.
  intros T firstName lastName. unfold transformForDb in T.
  fold firstName lastName in T.
  destruct (ToString (or_else firstName (VStr ""))) as [f| |] eqn:F;
    simpl in T; try discriminate.
  destruct (ToString (or_else lastName (VStr ""))) as [l| |] eqn:L;
    simpl in T; try discriminate.
  injection T as <-. cbn [name].
  destruct (trim_spec (f ++ " " ++ l)) as (pre & post & _ & _ & _ & S & E).
  assert (Tv : forall a, tidy a = true -> truthy (VStr a) = true).
  { intros a Ha. apply tidy_spec in Ha as (Na & _). simpl.
    apply negb_true_iff. now apply String.eqb_neq. }
  split; [exact S|]. split; [exact E|]. split; [|split].
  - intros a b Ea Eb Ha Hb. rewrite Ea in F. rewrite Eb in L.
    unfold or_else in F, L. rewrite (Tv a Ha) in F. rewrite (Tv b Hb) in L.
    injection F as <-. injection L as <-. now apply trim_both.
  - intros a Ea Fl Ha. rewrite Ea in F. rewrite (ToString_falsy _ Fl) in L.
    unfold or_else in F. rewrite (Tv a Ha) in F.
    injection F as <-. injection L as <-. now apply trim_first_only.
  - intros b Ff Eb Hb. rewrite (ToString_falsy _ Ff) in F. rewrite Eb in L.
    unfold or_else in L. rewrite (Tv b Hb) in L.
    injection F as <-. injection L as <-. now apply trim_last_only.
Qed.

Lemma name_is_trimmed_witness :
  exists r,
    row_of_line (split "," "name.lastName,hobby") "Lee,chess" = Ok r
    /\ name r = "Lee".
Proof.
  eexists. split; [reflexivity|].
  apply (proj2 (proj2 (proj2 (proj2
           (name_is_trimmed
              [("name", VObj [("lastName", VStr "Lee")]); ("hobby", VStr "chess")]
              _ eq_refl)))) "Lee"); reflexivity.
Defined.

(** ** Numerals inside a longer text *)

Lemma digits_uint_app (d : Decimal.uint) :
  forall a t,
    digits (NilEmpty.string_of_uint d ++ t) (Some a) =
    digits t (Some (uint_value d a)).
Proof.
  induction d; intros a t; simpl; try reflexivity; apply IHd.
Qed.

Lemma digits_stop (t : string) (a : Z) :
  leading_digit t = false -> digits t (Some a) = Some a.
Proof.
  destruct t as [|c t]; simpl; [reflexivity|].
  now destruct (digit_of c).
Qed.

Lemma string_of_Z_pos (p : positive) :
  string_of_Z (Zpos p) = NilEmpty.string_of_uint (Pos.to_uint p).
Proof.
  unfold string_of_Z. simpl. unfold NilZero.string_of_uint.
  pose proof (Unsigned.to_uint_nonnil p). now destruct (Pos.to_uint p).
Qed.

Lemma string_of_Z_neg (p : positive) :
  string_of_Z (Zneg p) = String "-" (NilEmpty.string_of_uint (Pos.to_uint p)).
Proof.
  unfold string_of_Z. simpl. unfold NilZero.string_of_uint.
  pose proof (Unsigned.to_uint_nonnil p). now destruct (Pos.to_uint p).
Qed.

Lemma uint_value_to_uint (p : positive) : uint_value (Pos.to_uint p) 0 = Zpos p.
Proof. now rewrite <- uint_value_of_uint, Unsigned.of_to. Qed.

(** A numeral that is not empty starts with a digit. *)
Lemma uint_first_digit (d : Decimal.uint) (t : string) :
  d <> Decimal.Nil ->
  exists c u, (NilEmpty.string_of_uint d ++ t)%string = String c u
              /\ is_ws c = false /\ Ascii.eqb c "-" = false
              /\ Ascii.eqb c "+" = false /\ Ascii.eqb c "$" = false
              /\ digits (String c u) None = digits (String c u) (Some 0%Z).
Proof.
  intros N. destruct d; [congruence| ..]; simpl; eexists _, _;
    repeat split; reflexivity.
Qed.

Lemma parseInt10_decorated (w rest : string) (n : Z) :
  all_ws w = true -> leading_digit rest = false ->
  parseInt10 (w ++ string_of_Z n ++ rest) = double_of_Z n.
Proof.
  intros W R. unfold parseInt10. rewrite (trimStart_all_ws w _ W).
  destruct n as [|p|p].
  - change (string_of_Z 0 ++ rest)%string with (String "0" rest).
    simpl. now rewrite (digits_stop rest _ R).
  - rewrite string_of_Z_pos.
    destruct (uint_first_digit (Pos.to_uint p) rest (Unsigned.to_uint_nonnil p))
      as (c & u & E & Hw & Hm & Hp & _ & D).
    rewrite trimStart_id by (rewrite E; exact Hw).
    assert (S : sign_and_rest (NilEmpty.string_of_uint (Pos.to_uint p) ++ rest)
                = (false, (NilEmpty.string_of_uint (Pos.to_uint p) ++ rest)%string)).
    { rewrite E. simpl. now rewrite Hm, Hp. }
    rewrite S. rewrite E, D, <- E, digits_uint_app, (digits_stop rest _ R).
    now rewrite uint_value_to_uint.
  - rewrite string_of_Z_neg.
    destruct (uint_first_digit (Pos.to_uint p) rest (Unsigned.to_uint_nonnil p))
      as (c & u & E & _ & _ & _ & _ & D).
    change (String "-" (NilEmpty.string_of_uint (Pos.to_uint p)) ++ rest)%string
      with (String "-" (NilEmpty.string_of_uint (Pos.to_uint p) ++ rest)).
    cbn [trimStart]. change (is_ws "-") with false. cbv iota.
    cbn [sign_and_rest]. change (Ascii.eqb "-" "-") with true. cbv iota.
    rewrite E, D, <- E, digits_uint_app, (digits_stop rest _ R).
    now rewrite uint_value_to_uint.
Qed.

Lemma string_of_Z_not_empty (n : Z) (t : string) :
  (string_of_Z n ++ t)%string <> "".
Proof.
  destruct n as [|p|p].
  - discriminate.
  - rewrite string_of_Z_pos.
    destruct (uint_first_digit (Pos.to_uint p) t (Unsigned.to_uint_nonnil p))
      as (c & u & E & _). rewrite E. discriminate.
  - rewrite string_of_Z_neg. discriminate.
Qed.

(** X8. Under the path [age] a value made of white space, a decimal
    numeral of an integer of at most 2^53 in magnitude, with or without a
    minus sign, and any text that does not start with a digit is stored as
    the integer of the numeral: the white space before and the text after
    are ignored. Whatever the size of the integer, what is stored is the
    double nearest to it. *)
Theorem age_numeral_decorated (obj : object) (w rest : string) (n : Z) :
  all_ws w = true -> leading_digit rest = false ->
  (Z.abs n <= 2 ^ 53)%Z ->
  setNestedProperty obj "age" (VStr (w ++ string_of_Z n ++ rest)) =
    Ok (put obj "age" (VNum n))
  /\ forall m,
       setNestedProperty obj "age" (VStr (w ++ string_of_Z m ++ rest)) =
       Ok (put obj "age" (double_of_Z m)).
Proof.
  intros W R B.
  assert (G : forall m,
             setNestedProperty obj "age" (VStr (w ++ string_of_Z m ++ rest)) =
             Ok (put obj "age" (double_of_Z m))).
  { intros m. unfold setNestedProperty.
    assert (N : (w ++ string_of_Z m ++ rest)%string <> "").
    { destruct w; [apply string_of_Z_not_empty|discriminate]. }
    rewrite (is_empty_string_VStr _ N), (stored_age _ N). cbn [bind].
    rewrite (parseInt10_decorated w rest m W R). reflexivity. }
  split; [|exact G]. now rewrite G, (double_of_Z_safe n B).
Qed.

Lemma age_numeral_decorated_witness :
  setNestedProperty [] "age" (VStr " -34.5 years") = Ok [("age", VNum (-34))].
Proof.
  apply (age_numeral_decorated [] " " ".5 years" (-34));
    [reflexivity|reflexivity|vm_compute; discriminate].
Defined.

(** ** The parameters of the insert statement *)

Lemma dollars_uint_app (d : Decimal.uint) (t : string) :
  dollars (NilEmpty.string_of_uint d ++ t) = dollars t.
Proof. induction d; simpl; auto. Qed.

Lemma nat_text_uint (k : nat) :
  exists d, d <> Decimal.Nil /\ nat_text k = NilEmpty.string_of_uint d
            /\ uint_value d 0 = Z.of_nat k.
Proof.
  unfold nat_text. destruct (Z.of_nat k) as [|p|p] eqn:E.
  - exists (Decimal.D0 Decimal.Nil). repeat split. discriminate.
  - exists (Pos.to_uint p).
    split; [apply Unsigned.to_uint_nonnil|].
    split; [apply string_of_Z_pos|apply uint_value_to_uint].
  - lia.
Qed.

Lemma dollars_param (k : nat) (t : string) :
  leading_digit t = false ->
  dollars (String "$" (nat_text k ++ t)) = Z.of_nat k :: dollars t.
Proof.
  intros L. destruct (nat_text_uint k) as (d & N & -> & V).
  cbn [dollars]. change (Ascii.eqb "$" "$") with true. cbv iota.
  rewrite dollars_uint_app.
  destruct (uint_first_digit d t N) as (c & u & E & _ & _ & _ & _ & D).
  rewrite E, D, <- E, digits_uint_app, (digits_stop t _ L), V. reflexivity.
Qed.

Lemma dollars_skip (c : ascii) (s : string) :
  Ascii.eqb c "$" = false -> dollars (String c s) = dollars s.
Proof. intros H. simpl. now rewrite H. Qed.

Lemma placeholders_app (i : nat) (t : string) :
  (placeholders i ++ t)%string =
  String "(" (String "$" (nat_text (i * 4 + 1) ++
  String "," (String " " (String "$" (nat_text (i * 4 + 2) ++
  String "," (String " " (String "$" (nat_text (i * 4 + 3) ++
  String "," (String " " (String "$" (nat_text (i * 4 + 4) ++
  String ")" t))))))))))).
Proof.
  unfold placeholders. cbv zeta. cbn [append].
  repeat (rewrite string_app_assoc; cbn [append]). reflexivity.
Qed.

Lemma dollars_placeholders (i : nat) (t : string) :
  dollars (placeholders i ++ t) =
  map Z.of_nat [i * 4 + 1; i * 4 + 2; i * 4 + 3; i * 4 + 4] ++ dollars t.
Proof.
  rewrite placeholders_app.
  rewrite dollars_skip, dollars_param by reflexivity.
  rewrite !dollars_skip, dollars_param by reflexivity.
  rewrite !dollars_skip, dollars_param by reflexivity.
  rewrite !dollars_skip, dollars_param by reflexivity.
  rewrite dollars_skip by reflexivity. reflexivity.
Qed.

Lemma map_rows_texts (batch : list dbRow) :
  forall i vs, fst (map_rows batch i vs) =
               map placeholders (seq i (List.length batch)).
Proof.
  induction batch as [|row batch IH]; intros i vs; simpl; [reflexivity|].
  specialize (IH (S i) (vs ++ pushed row)).
  destruct (map_rows batch (S i) (vs ++ pushed row)). simpl in *. now rewrite IH.
Qed.

Lemma map_rows_values (batch : list dbRow) :
  forall i vs, snd (map_rows batch i vs) = vs ++ flat_map pushed batch.
Proof.
  induction batch as [|row batch IH]; intros i vs; simpl.
  - now rewrite app_nil_r.
  - specialize (IH (S i) (vs ++ pushed row)).
    destruct (map_rows batch (S i) (vs ++ pushed row)). simpl in *.
    now rewrite IH, <- app_assoc.
Qed.

Lemma dollars_join (n : nat) :
  forall i t,
    dollars (join_with "," (map placeholders (seq i n)) ++ t) =
    map Z.of_nat (seq (i * 4 + 1) (4 * n)) ++ dollars t.
Proof.
  induction n as [|n IH]; intros i t; [reflexivity|].
  replace (4 * S n) with (4 + 4 * n) by lia.
  rewrite seq_app, map_app, <- app_assoc.
  replace (i * 4 + 1 + 4) with (S i * 4 + 1) by lia.
  change (seq i (S n)) with (i :: seq (S i) n). cbn [map].
  destruct n as [|n].
  - cbn [seq map join_with]. rewrite dollars_placeholders.
    simpl. repeat f_equal; lia.
  - rewrite join_with_cons by discriminate.
    rewrite string_app_assoc, dollars_placeholders.
    change (String "," ?a ++ t)%string with (String "," (a ++ t)).
    rewrite dollars_skip by reflexivity. rewrite IH.
    simpl. repeat f_equal; lia.
Qed.

Lemma nth_error_pushed (batch : list dbRow) :
  forall i row k,
    nth_error batch i = Some row -> k < 4 ->
    nth_error (flat_map pushed batch) (i * 4 + k) = nth_error (pushed row) k.
Proof.
  induction batch as [|r batch IH]; intros i row k E K.
  - now destruct i.
  - destruct i as [|i]; simpl in E.
    + injection E as ->. cbn [flat_map]. now rewrite nth_error_app1.
    + cbn [flat_map]. rewrite nth_error_app2 by (simpl; lia).
      replace (S i * 4 + k - List.length (pushed r)) with (i * 4 + k)
        by (simpl; lia).
      now apply IH.
Qed.

(** X9. In the statement built for a batch the parameters named are
    [$1] to [$4n], each once and in order, for the [n] rows of the batch;
    the array of values has [4n] entries, and the four parameters in the
    text of row [i] are the positions, counted from one, of that row's
    name, age, address and additional_info in the array. *)
Theorem query_parameters (batch : list dbRow) :
  dollars (fst (query_of batch)) =
    map Z.of_nat (seq 1 (4 * List.length batch))
  /\ List.length (snd (query_of batch)) = 4 * List.length batch
  /\ forall i row,
       nth_error batch i = Some row ->
       dollars (placeholders i) =
         map Z.of_nat [i * 4 + 1; i * 4 + 2; i * 4 + 3; i * 4 + 4]
       /\ map (nth_error (snd (query_of batch)))
              [i * 4; i * 4 + 1; i * 4 + 2; i * 4 + 3] =
          [Some (VStr (name row)); Some (age row); Some (address row);
           Some (additional_info row)].
Proof.
  unfold query_of.
  pose proof (map_rows_texts batch 0 []) as T.
  pose proof (map_rows_values batch 0 []) as V.
  destruct (map_rows batch 0 []) as [texts values]. simpl in T, V. subst.
  cbn [fst snd]. split; [|split].
  - unfold queryText. cbn [dollars append Ascii.eqb Bool.eqb newline ascii_of_nat
                            ascii_of_pos Pos.of_succ_nat Pos.succ Ascii.shift zero one].
    simpl dollars at 1.
    rewrite (dollars_join (List.length batch) 0). simpl dollars.
    now rewrite app_nil_r.
  - clear. induction batch as [|r batch IH]; simpl; [reflexivity|]. lia.
  - intros i row E. split.
    + rewrite <- (string_app_nil_r (placeholders i)), dollars_placeholders.
      simpl. reflexivity.
    + cbn [map].
      rewrite <- (Nat.add_0_r (i * 4)) at 1.
      rewrite !(nth_error_pushed batch i row _ E) by lia. reflexivity.
Qed.

Lemma query_parameters_witness :
  map (nth_error (snd (query_of
         [{| name := "A"; age := VNum 15; address := VNull;
             additional_info := VObj [] |};
          {| name := "B"; age := VNum 25; address := VNull;
             additional_info := VObj [("hobby", VStr "chess")] |}])))
      [4; 5; 6; 7] =
  [Some (VStr "B"); Some (VNum 25); Some VNull;
   Some (VObj [("hobby", VStr "chess")])].
Proof.
  apply (proj2 (proj2 (query_parameters
           [{| name := "A"; age := VNum 15; address := VNull;
               additional_info := VObj [] |};
            {| name := "B"; age := VNum 25; address := VNull;
               additional_info := VObj [("hobby", VStr "chess")] |}])) 1 _ eq_refl).
Defined.

(** ** The age distribution report *)

Ltac by_range :=
  cbv [in_range age_group String.eqb Ascii.eqb Bool.eqb];
  repeat match goal with
         | |- context [(?a <? ?b)%Z] => destruct (Z.ltb_spec a b)
         | |- context [(?a <=? ?b)%Z] => destruct (Z.leb_spec a b)
         end;
  simpl; solve [reflexivity | exfalso; lia].

Lemma age_group_label (age : Z) :
  exists g, age_group age = Some g /\ In g group_labels
            /\ in_range g age = true
            /\ forall g', In g' group_labels -> g' <> g ->
                          in_range g' age = false.
Proof.
  assert (cases : (age < 20 \/ 20 <= age <= 40 \/ 41 <= age <= 60 \/ 61 <= age)%Z)
    by lia.
  destruct cases as [H|[H|[H|H]]];
    [exists "< 20"|exists "20 to 40"|exists "40 to 60"|exists "> 60"];
    (split; [by_range|]);
    (split; [simpl; tauto|]);
    (split; [by_range|]);
    intros g' [<-|[<-|[<-|[<-|[]]]]] N; try congruence; by_range.
Qed.

(** No row is dropped by the filter, and the rows counted in a group are
    the users whose age lies in its range. *)
Lemma groups_of_ages (ages : list Z) :
  let groups := not_null (map age_group ages) in
  List.length groups = List.length ages
  /\ Forall (fun g => In g group_labels) groups
  /\ forall g, In g group_labels -> group_count g groups = head_count g ages.
Proof.
  induction ages as [|a ages (L & F & C)]; simpl.
  - split; [reflexivity|]. split; [constructor|reflexivity].
  - destruct (age_group_label a) as (g & E & I & R & O). rewrite E. simpl.
    split; [now rewrite L|]. split; [now constructor|].
    intros g' I'. unfold group_count, head_count in *. simpl.
    destruct (String.eqb_spec g' g) as [->|N].
    + rewrite R. simpl. now rewrite C.
    + rewrite (O g' I' N). now apply C.
Qed.

Lemma mem_distinct (g : string) (l : list string) :
  mem g (distinct l) = mem g l.
Proof.
  unfold mem. induction l as [|h t IH]; simpl; [reflexivity|].
  destruct (mem h t) eqn:M; unfold mem in M; simpl.
  - rewrite IH. destruct (String.eqb_spec g h) as [->|]; [now rewrite M|reflexivity].
  - now rewrite IH.
Qed.

Lemma distinct_not_mem (h : string) (t : list string) :
  mem h t = false -> mem h (distinct t) = false.
Proof. intros M. now rewrite mem_distinct. Qed.

(** Inserting a label that is not yet there into the labels a predicate
    keeps, in their order. *)
Lemma insert_group_filter (g : string) (P : string -> bool) :
  In g group_labels -> P g = false ->
  insert_group g (filter P group_labels) =
  filter (fun x => (x =? g) || P x) group_labels.
Proof.
  intros I H. unfold group_labels in *. simpl in I.
  destruct I as [<-|[<-|[<-|[<-|[]]]]]; simpl; rewrite ?H;
    destruct (P "< 20"), (P "20 to 40"), (P "40 to 60"), (P "> 60");
    try reflexivity; try discriminate.
Qed.

Lemma order_by_distinct (l : list string) :
  Forall (fun g => In g group_labels) l ->
  order_by (distinct l) = filter (fun g => mem g l) group_labels.
Proof.
  induction 1 as [|h t I _ IH]; [reflexivity|]. cbn [distinct].
  destruct (mem h t) eqn:M.
  - rewrite IH. apply filter_ext_in. intros g _. unfold mem in *. simpl.
    destruct (String.eqb_spec g h) as [->|]; [now rewrite M|reflexivity].
  - cbn [order_by]. rewrite IH. now rewrite (insert_group_filter h _ I M).
Qed.

Lemma mem_group_count (g : string) (l : list string) :
  mem g l = (0 <? group_count g l)%nat.
Proof.
  unfold mem, group_count. induction l as [|h t IH]; simpl; [reflexivity|].
  destruct (g =? h); simpl; [reflexivity|exact IH].
Qed.

Lemma report_by_range (ages : list Z) :
  report ages =
    map (fun g => (g, percent (Z.of_nat (head_count g ages))
                              (Z.of_nat (List.length ages))))
        (filter (fun g => (0 <? head_count g ages)%nat) group_labels).
Proof.
  destruct (groups_of_ages ages) as (L & F & C).
  unfold report. rewrite (order_by_distinct _ F).
  rewrite (filter_ext_in _ (fun g => (0 <? head_count g ages)%nat)).
  - apply map_ext_in. intros g I. apply filter_In in I as [I _].
    now rewrite (C g I).
  - intros g I. now rewrite mem_group_count, (C g I).
Qed.

Lemma head_counts_total (ages : list Z) :
  head_count "< 20" ages + head_count "20 to 40" ages
  + head_count "40 to 60" ages + head_count "> 60" ages
  = List.length ages.
Proof.
  unfold head_count. induction ages as [|a ages IH]; [reflexivity|].
  destruct (age_group_label a) as (g & _ & I & R & O).
  simpl in I. destruct I as [<-|[<-|[<-|[<-|[]]]]];
    cbn [filter]; rewrite R;
    rewrite ?(O "< 20"), ?(O "20 to 40"), ?(O "40 to 60"), ?(O "> 60")
      by (simpl; tauto || discriminate);
    cbn [List.length]; lia.
Qed.

(** X10. Every age falls in exactly one of the four ranges (below 20, 20 to
    40, 41 to 60, above 60), so the filter on the group drops no user. The
    report has one row for each range that holds a user, in the order of
    the ranges, with the share of that range's users among all users, and
    no row for a range without users; for an empty table it is empty. *)
Theorem report_rows (ages : list Z) :
  report ages =
    map (fun g => (g, percent (Z.of_nat (head_count g ages))
                              (Z.of_nat (List.length ages))))
        (filter (fun g => (0 <? head_count g ages)%nat) group_labels)
  /\ head_count "< 20" ages + head_count "20 to 40" ages
     + head_count "40 to 60" ages + head_count "> 60" ages
     = List.length ages
  /\ report [] = [].
Proof.
  split; [apply report_by_range|]. split; [apply head_counts_total|reflexivity].
Qed.

Lemma percent_bounds (c t : Z) :
  (0 <= c -> 0 < t ->
   2 * t * percent c t <= 20000 * c + t < 2 * t * percent c t + 2 * t)%Z.
Proof.
  intros Hc Ht. unfold percent.
  pose proof (Z.mul_div_le (2 * (c * 10000) + t) (2 * t) ltac:(lia)).
  pose proof (Z.mul_succ_div_gt (2 * (c * 10000) + t) (2 * t) ltac:(lia)).
  lia.
Qed.

Lemma percent_zero (t : Z) : (0 < t)%Z -> percent 0 t = 0%Z.
Proof.
  intros Ht. unfold percent. apply Z.div_small. lia.
Qed.

(** The share of a range without users adds nothing. *)
Lemma sum_shares (ages : list Z) :
  ages <> [] ->
  let total := Z.of_nat (List.length ages) in
  sum (map snd (report ages)) =
  (percent (Z.of_nat (head_count "< 20" ages)) total
   + percent (Z.of_nat (head_count "20 to 40" ages)) total
   + percent (Z.of_nat (head_count "40 to 60" ages)) total
   + percent (Z.of_nat (head_count "> 60" ages)) total)%Z.
Proof.
  intros N total.
  assert (T : (0 < total)%Z) by (unfold total; destruct ages; [congruence|simpl; lia]).
  rewrite report_by_range. fold total. unfold group_labels. cbn [filter].
  assert (Z0 : forall g, (0 <? head_count g ages)%nat = false ->
                         percent (Z.of_nat (head_count g ages)) total = 0%Z).
  { intros g H. apply Nat.ltb_ge in H.
    replace (head_count g ages) with 0 by lia. now apply percent_zero. }
  destruct (0 <? head_count "< 20" ages)%nat eqn:E1;
    destruct (0 <? head_count "20 to 40" ages)%nat eqn:E2;
    destruct (0 <? head_count "40 to 60" ages)%nat eqn:E3;
    destruct (0 <? head_count "> 60" ages)%nat eqn:E4;
    cbn [map snd sum fold_right];
    rewrite ?(Z0 _ E1), ?(Z0 _ E2), ?(Z0 _ E3), ?(Z0 _ E4); lia.
Qed.

(** X11. For a table that is not empty, each share of the report lies
    between 0 and 100.00, and the shares add up to 100.00 within the
    rounding of the four ranges: to no less than 99.99 and no more than
    100.02. *)
Theorem shares_add_up (ages : list Z) :
  ages <> [] ->
  Forall (fun p => 0 <= p <= 10000)%Z (map snd (report ages))
  /\ (9999 <= sum (map snd (report ages)) <= 10002)%Z.
Proof.
  intros N.
  assert (T : (0 < Z.of_nat (List.length ages))%Z)
    by (destruct ages; [congruence|simpl; lia]).
  pose proof (head_counts_total ages) as H.
  split.
  - rewrite report_by_range, map_map. cbn [snd].
    apply Forall_forall. intros p I. apply in_map_iff in I as (g & <- & I).
    apply filter_In in I as [I _].
    assert (C : head_count g ages <= List.length ages).
    { simpl in I. destruct I as [<-|[<-|[<-|[<-|[]]]]]; lia. }
    pose proof (percent_bounds (Z.of_nat (head_count g ages))
                  (Z.of_nat (List.length ages)) ltac:(lia) T).
    nia.
  - rewrite (sum_shares ages N).
    pose proof (percent_bounds (Z.of_nat (head_count "< 20" ages)) _ ltac:(lia) T).
    pose proof (percent_bounds (Z.of_nat (head_count "20 to 40" ages)) _ ltac:(lia) T).
    pose proof (percent_bounds (Z.of_nat (head_count "40 to 60" ages)) _ ltac:(lia) T).
    pose proof (percent_bounds (Z.of_nat (head_count "> 60" ages)) _ ltac:(lia) T).
    nia.
Qed.

Lemma shares_add_up_witness :
  (9999 <= sum (map snd (report [15; 25; 65])) <= 10002)%Z.
Proof.
  apply (shares_add_up [15; 25; 65]%Z). discriminate.
Defined.

(** The three users of ages 15, 25 and 65: a third each. *)
Example report_of_three :
  report [15; 25; 65]%Z = [("< 20", 3333); ("20 to 40", 3333); ("> 60", 3333)]%Z.
Proof. reflexivity. Qed.

(** ** What holds in every run *)

Section Always.

Variable db : nat -> list dbRow -> reply.




End Always.



(** ** The keys of a record come from the header *)

Lemma has_put (ps : object) (k k' : string) (v : value) :
  has (put ps k v) k' = true -> has ps k' = true \/ k' = k.
Proof.
  unfold has. destruct (String.eqb_spec k k') as [->|N]; [now right|].
  rewrite get_put_other by assumption. now left.
Qed.

(** X13. The record the row loop builds has no top-level key but the first
    segments of the header's columns (and the keys it started with): the
    loop never makes up a key. *)
Theorem keys_come_from_header (hs : list string) :
  forall (index : nat) (values : list string) (obj r : object),
    forEach hs index values obj = Ok r ->
    forall k, has r k = true ->
              has obj k = true \/ In k (map first_segment hs).
Proof.
  induction hs as [|h hs IH]; intros index values obj r; simpl.
  - intros E. injection E as <-. now left.
  - destruct (setNestedProperty obj h (value_at values index)) as [o| |] eqn:S;
      simpl; try discriminate.
    intros F k H. destruct (IH _ _ _ _ F k H) as [Ho|Hi]; [|now right; right].
    apply setNestedProperty_shape in S as [->|[x ->]]; [now left|].
    apply has_put in Ho as [Ho | E]; [now left|subst k; right; now left].
Qed.

Lemma keys_come_from_header_witness :
  In "hobby" (map first_segment (split "," "name.firstName,hobby")).
Proof.
  destruct (keys_come_from_header (split "," "name.firstName,hobby") 0
              (split "," "Ann,chess") [] _ eq_refl "hobby" eq_refl) as [H|H].
  - discriminate H.
  - exact H.
Defined.

(** ** Headers that fit together never make a line fail *)

Lemma reach_single (obj : object) (k : string) : reach obj [k] = get obj k.
Proof. reflexivity. Qed.

Lemma reach_nil_object (q : list string) : reach [] q = None.
Proof. destruct q as [|k [|k' q]]; reflexivity. Qed.

Lemma reach_put_other (obj : object) (k0 k : string) (q : list string)
  (v : value) :
  k0 <> k -> reach (put obj k0 v) (k :: q) = reach obj (k :: q).
Proof.
  intros N. destruct q as [|k' q]; simpl; now rewrite get_put_other.
Qed.

Lemma reach_put_same (obj : object) (k : string) (q : list string)
  (child : object) :
  q <> [] -> reach (put obj k (VObj child)) (k :: q) = reach child q.
Proof. intros N. apply reach_cons; [exact N|apply get_put_same]. Qed.

Lemma reach_put_leaf (obj : object) (k : string) (q : list string) (v : value) :
  q <> [] -> is_obj v = false -> reach (put obj k v) (k :: q) = None.
Proof.
  intros N O. destruct q as [|k' q]; [congruence|]. simpl.
  rewrite get_put_same. now destruct v.
Qed.

(** What is on the way is found by following a prefix. *)
Lemma blocked_reach (ks : list string) :
  forall obj,
    blocked obj ks = true ->
    exists q rest leaf,
      ks = q ++ rest /\ q <> [] /\ reach obj q = Some leaf
      /\ is_obj leaf = false.
Proof.
  induction ks as [|k ks IH]; intros obj; simpl; [discriminate|].
  destruct (get obj k) as [c|] eqn:G; [|discriminate].
  assert (leaf : is_obj c = false ->
                 exists q rest leaf, k :: ks = q ++ rest /\ q <> []
                   /\ reach obj q = Some leaf /\ is_obj leaf = false).
  { intros O. exists [k], ks, c. repeat split; [discriminate|exact G|exact O]. }
  destruct c as [| | | | |child|]; intros B; try (now apply leaf).
  destruct (IH child B) as (q & rest & x & -> & N & R & O).
  exists (k :: q), rest, x. repeat split; [discriminate| |exact O].
  now rewrite (reach_cons obj k q child N G).
Qed.

(** One turn of the loop that is not stopped: it goes on in the mapping
    under the key, or in a new one. *)
Lemma walk_step (obj : object) (k0 : string) (ks : list string)
  (lastKey : string) (v : value) (r : object) :
  walk obj (k0 :: ks) lastKey v = Ok r ->
  blocked obj (k0 :: ks) = false ->
  exists child r',
    walk child ks lastKey v = Ok r' /\ r = put obj k0 (VObj r')
    /\ blocked child ks = false
    /\ forall q x, q <> [] -> reach child q = Some x ->
                   reach obj (k0 :: q) = Some x.
Proof.
  intros W B. simpl in W, B.
  assert (fresh : forall r', walk [] ks lastKey v = Ok r' ->
            Ok (put obj k0 (VObj r')) = Ok r ->
            exists child r'',
              walk child ks lastKey v = Ok r'' /\ r = put obj k0 (VObj r'')
              /\ blocked child ks = false
              /\ forall q x, q <> [] -> reach child q = Some x ->
                             reach obj (k0 :: q) = Some x).
  { intros r' W' E. injection E as <-. exists [], r'.
    repeat split; [exact W'|now destruct ks|].
    intros q x _ R. now rewrite reach_nil_object in R. }
  destruct (get obj k0) as [c|] eqn:G.
  - destruct c as [| |s|n| |child|inf];
      try (simpl in W; destruct (walk [] ks lastKey v) as [r'| |] eqn:W';
           simpl in W; try discriminate; exact (fresh r' eq_refl W)).
    + simpl in W, B. rewrite B in W.
      destruct (walk [] ks lastKey v) as [r'| |] eqn:W';
        simpl in W; try discriminate; exact (fresh r' eq_refl W).
    + simpl in W, B. rewrite B in W.
      destruct (walk [] ks lastKey v) as [r'| |] eqn:W';
        simpl in W; try discriminate; exact (fresh r' eq_refl W).
    + destruct (walk child ks lastKey v) as [r'| |] eqn:W';
        simpl in W; try discriminate.
      injection W as <-. exists child, r'. repeat split; try assumption.
      intros q x N R. now rewrite (reach_cons obj k0 q child N G).
  - destruct (mem k0 object_proto); [discriminate|].
    destruct (walk [] ks lastKey v) as [r'| |] eqn:W';
      simpl in W; try discriminate; exact (fresh r' eq_refl W).
Qed.

(** What the record holds after a write that is not stopped: the value at
    the path, mappings on the way to it, and elsewhere what it held. *)
Lemma walk_reach_cases (ks : list string) :
  forall (obj : object) (lastKey : string) (v : value) (r : object),
    walk obj ks lastKey v = Ok r -> blocked obj ks = false ->
    (lastKey =? "__proto__") = false -> is_obj v = false ->
    forall q x,
      reach r q = Some x ->
      (q = ks ++ [lastKey] /\ x = v)
      \/ (exists rest, rest <> [] /\ q ++ rest = ks ++ [lastKey]
                       /\ is_obj x = true)
      \/ reach obj q = Some x.
Proof.
  induction ks as [|k0 ks IH]; intros obj lastKey v r W B P O q x R.
  - simpl in W. unfold assign in W. rewrite P in W. simpl in W.
    injection W as <-. destruct q as [|k q]; [discriminate|].
    destruct (String.eqb_spec lastKey k) as [->|N].
    + destruct q as [|k' q].
      * rewrite reach_single, get_put_same in R. injection R as <-. now left.
      * rewrite reach_put_leaf in R by (discriminate || assumption).
        discriminate.
    + right. right. now rewrite reach_put_other in R.
  - destruct (walk_step obj k0 ks lastKey v r W B)
      as (child & r' & W' & -> & B' & C).
    destruct q as [|k q]; [discriminate|].
    destruct (String.eqb_spec k0 k) as [->|N].
    + destruct q as [|k' q].
      * rewrite reach_single, get_put_same in R. injection R as <-.
        right. left. exists (ks ++ [lastKey]).
        repeat split. now destruct ks.
      * rewrite reach_put_same in R by discriminate.
        destruct (IH child lastKey v r' W' B' P O (k' :: q) x R)
          as [[E ->]|[(rest & Nr & E & Ox)|R']].
        -- left. split; [simpl; now rewrite E|reflexivity].
        -- right. left. exists rest. repeat split; try assumption.
           simpl. now rewrite <- E.
        -- right. right. apply C; [discriminate|exact R'].
    + right. right. now rewrite reach_put_other in R.
Qed.

(** A write that is not stopped and meets no name of [Object.prototype]
    returns. *)
Lemma walk_total (ks : list string) :
  forall (obj : object) (lastKey : string) (v : value),
    blocked obj ks = false ->
    forallb (fun k => negb (mem k object_proto)) ks = true ->
    (lastKey =? "__proto__") = false ->
    exists r, walk obj ks lastKey v = Ok r.
Proof.
  induction ks as [|k ks IH]; intros obj lastKey v B M P; simpl.
  - unfold assign. rewrite P. simpl. eauto.
  - simpl in B, M. apply andb_true_iff in M as [Mk M].
    apply negb_true_iff in Mk.
    assert (E : blocked [] ks = false) by (now destruct ks).
    destruct (IH [] lastKey v E M P) as (r0 & W0).
    destruct (get obj k) as [c|]; [|rewrite Mk, W0; simpl; eauto].
    destruct c as [| |s|n| |child|inf]; simpl; simpl in B;
      try discriminate B;
      try (rewrite W0; simpl; eauto; fail);
      try (rewrite B, W0; simpl; eauto; fail).
    destruct (IH child lastKey v B M P) as (r1 & W1). rewrite W1. simpl. eauto.
Qed.

Lemma proper_prefix_app (h rest : list string) :
  rest <> [] -> proper_prefix h (h ++ rest) = true.
Proof.
  intros N. induction h as [|k h IH]; simpl.
  - now destruct rest.
  - now rewrite String.eqb_refl, IH.
Qed.

Lemma prefix_freeb_spec (H : list (list string)) :
  prefix_freeb H = true -> prefix_free H.
Proof.
  unfold prefix_freeb, prefix_free. intros F h rest I I'.
  rewrite forallb_forall in F. specialize (F h I).
  rewrite forallb_forall in F. specialize (F _ I').
  destruct rest as [|x rest]; [reflexivity|].
  rewrite proper_prefix_app in F by discriminate. discriminate.
Qed.

Lemma plain_pathsb_spec (H : list (list string)) :
  plain_pathsb H = true -> plain_paths H.
Proof.
  unfold plain_pathsb, plain_paths. intros F h k I Ik.
  rewrite forallb_forall in F. specialize (F h I).
  rewrite forallb_forall in F. specialize (F k Ik).
  now apply negb_true_iff in F.
Qed.

Lemma fits_empty (H : list (list string)) : fits H [].
Proof. intros q x R. now rewrite reach_nil_object in R. Qed.

Lemma stored_value_at (path : string) (values : list string) (index : nat) :
  exists x, stored path (value_at values index) = Ok x /\ is_obj x = false.
Proof.
  unfold stored, value_at.
  destruct (nth_error values index) as [s|]; cbn [truthy].
  - destruct ((path =? "age") && negb (s =? "")); [|eauto].
    unfold parseInt. cbn [ToString bind].
    destruct (parseInt10_number s) as [E|[[i E]|[b E]]]; rewrite E; eauto.
  - rewrite andb_false_r. eauto.
Qed.

Section Fitting.

Variable H : list (list string).
Hypothesis plain : plain_paths H.
Hypothesis free : prefix_free H.

Lemma setNestedProperty_fits (obj : object) (h : string)
  (values : list string) (index : nat) :
  In (split "." h) H -> fits H obj ->
  exists r, setNestedProperty obj h (value_at values index) = Ok r
            /\ fits H r.
Proof.
  intros I F. unfold setNestedProperty.
  destruct (is_empty_string (value_at values index)); [eauto|].
  destruct (stored_value_at h values index) as (x & -> & O). simpl.
  pose proof (app_removelast_last "" (split_not_nil "." h)) as E.
  set (ks := removelast (split "." h)) in *.
  set (lastKey := last (split "." h) "") in *.
  assert (B : blocked obj ks = false).
  { destruct (blocked obj ks) eqn:B; [|reflexivity].
    destruct (blocked_reach ks obj B) as (q & rest & leaf & Eq & N & R & Ol).
    pose proof (proj1 (F q leaf R) Ol) as Iq.
    rewrite E, Eq, <- app_assoc in I.
    pose proof (free q _ Iq I) as Z. now destruct rest. }
  assert (M : forallb (fun k => negb (mem k object_proto)) ks = true).
  { apply forallb_forall. intros k Ik. apply negb_true_iff.
    apply (plain _ k I). rewrite E. apply in_or_app. now left. }
  assert (P : (lastKey =? "__proto__") = false).
  { apply String.eqb_neq. intros Z.
    assert (C : mem lastKey object_proto = false).
    { apply (plain _ lastKey I). rewrite E. apply in_or_app. right. now left. }
    rewrite Z in C. discriminate. }
  destruct (walk_total ks obj lastKey x B M P) as (r & W).
  exists r. split; [exact W|]. intros q y R.
  destruct (walk_reach_cases ks obj lastKey x r W B P O q y R)
    as [[-> ->]|[(rest & N & Eq & Oy)|R']].
  - rewrite <- E. split; [trivial|]. exists []. now rewrite app_nil_r.
  - split; [congruence|]. exists rest. now rewrite Eq, <- E.
  - exact (F q y R').
Qed.

Lemma forEach_fits (hs : list string) :
  (forall h, In h hs -> In (split "." h) H) ->
  forall (index : nat) (values : list string) (obj : object),
    fits H obj ->
    exists r, forEach hs index values obj = Ok r /\ fits H r.
Proof.
  induction hs as [|h hs IH]; intros I index values obj F; simpl; [eauto|].
  destruct (setNestedProperty_fits obj h values index) as (o & -> & Fo);
    [apply I; now left|exact F|].
  simpl. apply IH; [|exact Fo]. intros h' I'. apply I. now right.
Qed.

Lemma member_printable (obj : object) (k : string) :
  fits H obj -> printable (member (get_or_undef obj "name") k) = true.
Proof.
  intros F. unfold get_or_undef.
  destruct (get obj "name") as [[| | | | |nm|]|] eqn:G; try reflexivity.
  simpl. unfold get_or_undef.
  destruct (get nm k) as [[| | | | |ps|]|] eqn:G'; try reflexivity.
  simpl. unfold has. destruct (get ps "toString") as [z|] eqn:G''; [|reflexivity].
  assert (R : reach obj ["name"; k; "toString"] = Some z).
  { simpl. now rewrite G, G'. }
  destruct (proj2 (F _ _ R)) as (rest & I).
  assert (C : mem "toString" object_proto = false).
  { apply (plain _ "toString" I). simpl. tauto. }
  discriminate.
Qed.

Lemma row_of_line_fits (hs : list string) (line : string) :
  (forall h, In h hs -> In (split "." h) H) ->
  exists r, row_of_line hs line = Ok r.
Proof.
  intros I. unfold row_of_line.
  destruct (forEach_fits hs I 0 (split "," line) [] (fits_empty H))
    as (obj & -> & F).
  simpl. unfold transformForDb.
  rewrite (ToString_shown _ (member_printable obj "firstName" F)).
  rewrite (ToString_shown _ (member_printable obj "lastName" F)).
  simpl. eauto.
Qed.

End Fitting.

Lemma rows_exist (hs : list string) (lines : list string) :
  (forall line, exists r, row_of_line hs line = Ok r) ->
  exists rows, Forall2 (builds hs) lines rows.
Proof.
  intros T. induction lines as [|l lines (rows & F)]; [exists []; constructor|].
  destruct (T l) as (r & E). exists (r :: rows). now constructor.
Qed.

(** X14. When no column path of the header continues another and no
    segment is a name that [Object.prototype] defines, no line can make the
    row loop throw or leave the record: every line builds a row, whatever
    it holds, and with a database that can be reached every run answers
    200 after sending one row for each data line. *)
Theorem fitting_header_always_builds (db : nat -> list dbRow -> reply)
  (header : string) (lines : list string) :
  fitting header = true ->
  (forall i b, db i b <> ConnectFails) ->
  (forall line, exists r, row_of_line (split "," header) line = Ok r)
  /\ exists s,
       upload db (header :: lines) = Some (Status200, s)
       /\ List.length (List.concat (attempts s)) = List.length lines.
Proof.
  unfold fitting. intros W C. apply andb_true_iff in W as [P F].
  apply plain_pathsb_spec in P. apply prefix_freeb_spec in F.
  assert (T : forall line, exists r, row_of_line (split "," header) line = Ok r).
  { intros line. apply (row_of_line_fits _ P F).
    intros h I. now apply in_map. }
  split; [exact T|].
  destruct (rows_exist _ lines T) as (rows & R).
  destruct (upload_rows db header lines rows C R)
    as (s & _ & _ & E & _ & _ & _ & _ & L & _).
  exists s. split; [exact E|exact L].
Qed.

Lemma fitting_header_always_builds_witness :
  exists r,
    row_of_line
      (split "," "name.firstName,name.lastName,age,address.city,hobby")
      ",,x,,," = Ok r.
Proof.
  apply (proj1 (fitting_header_always_builds accepting
                  "name.firstName,name.lastName,age,address.city,hobby" []
                  eq_refl (fun i b E => ltac:(discriminate E)))).
Defined.

(** ** The age column and the other paths *)




(** ** A failed insert is logged and the next ones are sent *)

Lemma console_app (db : nat -> list dbRow -> reply) (a a' : list (list dbRow)) :
  forall i, console db i (a ++ a') =
            console db i a ++ console db (i + List.length a) a'.
Proof.
  induction a as [|b a IH]; intros i; simpl.
  - now rewrite Nat.add_0_r.
  - now rewrite IH, Nat.add_succ_r.
Qed.

Lemma console_nth (db : nat -> list dbRow -> reply) (a : list (list dbRow)) :
  forall i k b,
    nth_error a k = Some b ->
    nth_error (console db i a) k = Some (console_of db (i + k) b).
Proof.
  induction a as [|x a IH]; intros i k b; destruct k as [|k]; simpl;
    try discriminate.
  - intros E. injection E as ->. now rewrite Nat.add_0_r.
  - intros E. rewrite (IH (S i) k b E). now rewrite Nat.add_succ_r.
Qed.

Lemma concat_final_insert (rest : list dbRow) :
  List.concat (final_insert rest) = rest.
Proof. destruct rest; simpl; [reflexivity|now rewrite app_nil_r]. Qed.

(** Full batches and what is left over are the slices of their rows. *)
Lemma chunks_nth (n : nat) (full : list (list dbRow)) (rest : list dbRow) :
  0 < n -> Forall (fun b => List.length b = n) full -> List.length rest < n ->
  forall k,
    nth_error (full ++ final_insert rest) k =
    if (k * n <? List.length (List.concat full ++ rest))%nat
    then Some (firstn n (skipn (k * n) (List.concat full ++ rest)))
    else None.
Proof.
  intros P F L. induction F as [|b full Hb F IH]; intros k.
  - cbn [List.concat app]. destruct rest as [|x rest]; cbn [final_insert].
    + destruct (Nat.ltb_spec (k * n) (List.length (@nil dbRow)));
        [simpl in *; lia|now destruct k].
    + destruct k as [|k].
      * cbn [Nat.mul skipn nth_error].
        destruct (Nat.ltb_spec 0 (List.length (x :: rest))); [|simpl in *; lia].
        now rewrite firstn_all2 by lia.
      * destruct (Nat.ltb_spec (S k * n) (List.length (x :: rest)));
          [simpl in *; lia|now destruct k].
  - cbn [List.concat app]. rewrite <- app_assoc.
    destruct k as [|k].
    + cbn [Nat.mul skipn nth_error].
      destruct (Nat.ltb_spec 0 (List.length (b ++ List.concat full ++ rest)));
        [|rewrite length_app in *; lia].
      now rewrite firstn_app_exact.
    + cbn [nth_error]. rewrite IH.
      assert (E : skipn (S k * n) (b ++ List.concat full ++ rest) =
                  skipn (k * n) (List.concat full ++ rest)).
      { rewrite skipn_app, skipn_all2 by (simpl; lia).
        cbn [app]. f_equal. simpl. lia. }
      rewrite E. rewrite (length_app b). rewrite Hb.
      destruct (Nat.ltb_spec (k * n) (List.length (List.concat full ++ rest))),
               (Nat.ltb_spec (S k * n) (n + List.length (List.concat full ++ rest)));
        simpl in *; try reflexivity; lia.
Qed.

Section Logged.

Variable db : nat -> list dbRow -> reply.
Hypothesis connects : forall i b, db i b <> ConnectFails.

Lemma answered_announced (s : store) (b : list dbRow) :
  announced db s -> announced db (answered db s b).
Proof.
  unfold announced, answered. cbn [attempts logged]. intros ->.
  rewrite console_app. reflexivity.
Qed.

Lemma insertDataBatch_announced (b : list dbRow) (s t : store) :
  announced db s -> insertDataBatch db b s = Ok t -> announced db t.
Proof.
  intros A. destruct b as [|r b]; [intros E; now injection E as <-|].
  rewrite (insertDataBatch_answered db connects) by discriminate.
  intros E. injection E as <-. now apply answered_announced.
Qed.

Lemma on_line_announced (st a : loop) (line : string) :
  announced db (users st) -> on_line db st line = Ok a ->
  announced db (users a).
Proof.
  intros A. unfold on_line.
  destruct (isFirstLine st); [intros E; now injection E as <-|].
  destruct (row_of_line (headers st) line) as [r|e|]; cbn [bind];
    try discriminate.
  destruct (BATCH_SIZE <=? List.length (batch st ++ [r]))%nat.
  - destruct (insertDataBatch db (batch st ++ [r]) (users st)) as [t|e|] eqn:I;
      cbn [bind]; try discriminate.
    intros E. injection E as <-. cbn [users].
    exact (insertDataBatch_announced _ _ _ A I).
  - intros E. now injection E as <-.
Qed.

Lemma for_await_announced (lines : list string) :
  forall st,
    announced db (users st) ->
    match for_await db lines st with
    | Finished a => announced db (users a)
    | Caught _ s => announced db s
    | Untracked => True
    end.
Proof.
  induction lines as [|line lines IH]; intros st A; cbn [for_await];
    [exact A|].
  destruct (on_line db st line) as [a|e|] eqn:O; [|exact A|exact I].
  apply IH. exact (on_line_announced st a line A O).
Qed.

Lemma upload_announced (lines : list string) :
  forall resp s, upload db lines = Some (resp, s) -> announced db s.
Proof.
  intros resp s. unfold upload.
  assert (A0 : announced db (users start)) by reflexivity.
  pose proof (for_await_announced lines start A0) as H.
  destruct (for_await db lines start) as [a|e s0|]; [| |discriminate].
  - unfold final_flush.
    destruct (0 <? List.length (batch a))%nat.
    + destruct (insertDataBatch db (batch a) (users a)) as [t|e|] eqn:I;
        try discriminate.
      * intros E. injection E as _ <-.
        exact (insertDataBatch_announced _ _ _ H I).
      * intros E. now injection E as _ <-.
    + intros E. now injection E as _ <-.
  - intros E. now injection E as _ <-.
Qed.

End Logged.

(** C6. Whatever inserts the database rejects, as long as it can be
    reached, a run over lines that build rows answers 200 and sends every
    insert: the [k]-th insert is the [k]-th slice of the rows, a batch of
    1000 or what is left over, and there is none beyond the rows. For each
    insert one line is written to the console, in order: the error line
    when the database rejected it, the success line with the number of rows
    when it accepted. So a rejected insert is logged and every later insert
    is still sent. The table then holds the rows of the accepted inserts,
    and the response and the inserts are those of a run in which every
    insert is accepted. *)
Theorem write_failure_absorbed (db : nat -> list dbRow -> reply)
  (header : string) (lines : list string) (rows : list dbRow) :
  (forall i b, db i b <> ConnectFails) ->
  Forall2 (builds (split "," header)) lines rows ->
  exists s,
    upload db (header :: lines) = Some (Status200, s)
    /\ (forall k, nth_error (attempts s) k =
                  if (k * BATCH_SIZE <? List.length rows)%nat
                  then Some (slice k rows) else None)
    /\ List.concat (attempts s) = rows
    /\ logged s = console db 0 (attempts s)
    /\ (forall k, k * BATCH_SIZE < List.length rows ->
                  db k (slice k rows) = QueryFails ->
                  nth_error (logged s) k = Some (Error error_text)
                  /\ forall j, k < j -> j * BATCH_SIZE < List.length rows ->
                               nth_error (attempts s) j = Some (slice j rows))
    /\ (forall k, k * BATCH_SIZE < List.length rows ->
                  db k (slice k rows) = Inserted ->
                  nth_error (logged s) k =
                  Some (Log (inserted_text (List.length (slice k rows)))))
    /\ persisted s = landed db 0 (attempts s)
    /\ same_inserts (upload db (header :: lines))
                    (upload accepting (header :: lines)).
Proof.
  intros C F.
  destruct (upload_rows db header lines rows C F)
    as (s & full & rest & U & A & Fb & L & Cc & _ & _).
  assert (R : rows = List.concat full ++ rest).
  { now rewrite <- Cc, A, concat_app, concat_final_insert. }
  assert (N : forall k, nth_error (attempts s) k =
                        if (k * BATCH_SIZE <? List.length rows)%nat
                        then Some (slice k rows) else None).
  { intros k. rewrite A, R. unfold slice.
    apply chunks_nth; [unfold BATCH_SIZE; lia|exact Fb|exact L]. }
  assert (Nk : forall k, k * BATCH_SIZE < List.length rows ->
                         nth_error (attempts s) k = Some (slice k rows)).
  { intros k Hk. rewrite N. now rewrite (proj2 (Nat.ltb_lt _ _) Hk). }
  pose proof (upload_announced db C _ _ _ U) as G. unfold announced in G.
  assert (Gk : forall k, k * BATCH_SIZE < List.length rows ->
                         nth_error (logged s) k =
                         Some (console_of db k (slice k rows))).
  { intros k Hk. rewrite G. exact (console_nth db _ 0 k _ (Nk k Hk)). }
  exists s. split; [exact U|]. split; [exact N|]. split; [exact Cc|].
  split; [exact G|].
  split.
  { intros k Hk Q. split.
    - rewrite (Gk k Hk). unfold console_of. now rewrite Q.
    - intros j _ Hj. exact (Nk j Hj). }
  split.
  { intros k Hk Q. rewrite (Gk k Hk). unfold console_of. now rewrite Q. }
  split; [exact (upload_accounted db _ C _ _ U)|].
  exact (upload_alike db _ C).
Qed.

Lemma write_failure_absorbed_witness :
  exists s,
    upload second_fails ("name.firstName,age" :: repeat "A,15" 2500) =
      Some (Status200, s)
    /\ nth_error (logged s) 1 = Some (Error error_text)
    /\ nth_error (attempts s) 2 =
       Some (repeat {| name := "A"; age := VNum 15; address := VNull;
                       additional_info := VObj [] |} 500).
Proof.
  destruct (write_failure_absorbed second_fails "name.firstName,age"
              (repeat "A,15" 2500)
              (repeat {| name := "A"; age := VNum 15; address := VNull;
                         additional_info := VObj [] |} 2500))
    as (s & U & N & _ & _ & Fl & _).
  - intros i b. unfold second_fails. destruct (i =? 1)%nat; discriminate.
  - apply Forall2_repeat. reflexivity.
  - exists s. split; [exact U|]. split.
    + apply (Fl 1); [apply Nat.ltb_lt; vm_compute; reflexivity|reflexivity].
    + rewrite (N 2). vm_compute. reflexivity.
Defined.

(** ** Where the value of a column lands *)

Lemma apart_false (p : list string) :
  forall q, apart p q = false -> exists rest, q = p ++ rest \/ p = q ++ rest.
Proof.
  induction p as [|a p IH]; intros q E.
  - exists q. now left.
  - destruct q as [|b q]; [exists (a :: p); now right|].
    simpl in E. destruct (String.eqb_spec a b) as [->|N]; [|discriminate].
    destruct (IH q E) as (rest & [-> | ->]); exists rest; [left|right];
      reflexivity.
Qed.

Lemma split_inj (sep : ascii) (a b : string) :
  split sep a = split sep b -> a = b.
Proof.
  intros E. rewrite <- (join_with_split sep a), <- (join_with_split sep b).
  now rewrite E.
Qed.

Lemma reach_cons_inv (obj : object) (k : string) (rest : list string)
  (x : value) :
  rest <> [] -> reach obj (k :: rest) = Some x ->
  exists m, get obj k = Some (VObj m) /\ reach m rest = Some x.
Proof.
  destruct rest as [|k' rest]; [congruence|]. intros _. simpl.
  destruct (get obj k) as [[| | | | |m|]|]; try discriminate. eauto.
Qed.

Lemma reach_rest_of (obj : object) (q : list string) :
  mem (hd "" q) ["name"; "age"; "address"] = false ->
  reach (rest_of obj) q = reach obj q.
Proof.
  destruct q as [|k [|k' q]]; intros M; simpl in *; [reflexivity| |];
    now rewrite get_rest_of, M.
Qed.

Lemma member_reach (obj : object) (k : string) (x : value) :
  reach obj ["name"; k] = Some x -> member (get_or_undef obj "name") k = x.
Proof.
  simpl. unfold get_or_undef.
  destruct (get obj "name") as [[| | | | |m|]|]; try discriminate.
  simpl. unfold get_or_undef. now intros ->.
Qed.

(** The loop goes on in the mapping the record holds under the key. *)
Lemma walk_object (obj : object) (k0 : string) (ks : list string)
  (lastKey : string) (v : value) (r c : object) :
  get obj k0 = Some (VObj c) -> walk obj (k0 :: ks) lastKey v = Ok r ->
  exists r', walk c ks lastKey v = Ok r' /\ r = put obj k0 (VObj r').
Proof.
  intros G. simpl. rewrite G.
  destruct (walk c ks lastKey v) as [r'| |]; simpl; try discriminate.
  intros E. injection E as <-. eauto.
Qed.

(** A write leaves alone what sits at a path that parts ways with its
    own. *)
Lemma walk_keeps (ks : list string) :
  forall (obj : object) (lastKey : string) (v : value) (r : object),
    (lastKey =? "__proto__") = false ->
    walk obj ks lastKey v = Ok r ->
    forall q x,
      apart q (ks ++ [lastKey]) = true ->
      reach obj q = Some x -> reach r q = Some x.
Proof.
  induction ks as [|k0 ks IH]; intros obj lastKey v r P W q x A R.
  - simpl in W. unfold assign in W. rewrite P in W. simpl in W.
    injection W as <-. destruct q as [|k q]; [discriminate|].
    cbn [app apart] in A.
    destruct (String.eqb_spec k lastKey) as [->|N];
      [destruct q; discriminate|].
    rewrite reach_put_other; [exact R|congruence].
  - destruct q as [|k q]; [discriminate|]. cbn [app apart] in A.
    destruct (String.eqb_spec k k0) as [->|N].
    + assert (Nq : q <> []) by (intros ->; discriminate A).
      destruct (reach_cons_inv obj k0 q x Nq R) as (m & G & Rm).
      destruct (walk_object obj k0 ks lastKey v r m G W) as (r' & W' & ->).
      rewrite reach_put_same by exact Nq.
      exact (IH m lastKey v r' P W' q x A Rm).
    + destruct (walk_shape obj (k0 :: ks) lastKey v r W) as [->|[y ->]];
        [exact R|].
      cbn [hd]. rewrite reach_put_other; [exact R|congruence].
Qed.

Lemma setNestedProperty_keeps (obj : object) (h : string) (v : value)
  (r : object) (q : list string) (x : value) :
  last (split "." h) "" <> "__proto__" ->
  setNestedProperty obj h v = Ok r ->
  apart q (split "." h) = true ->
  reach obj q = Some x -> reach r q = Some x.
Proof.
  intros P. unfold setNestedProperty.
  destruct (is_empty_string v); [intros E; now injection E as <-|].
  destruct (stored h v) as [y| |]; simpl; try discriminate.
  intros W A R.
  apply (walk_keeps _ _ _ _ _ (proj2 (String.eqb_neq _ _) P) W); [|exact R].
  now rewrite <- app_removelast_last by apply split_not_nil.
Qed.

Section Landing.

Variable H : list (list string).
Hypothesis plain : plain_paths H.
Hypothesis free : prefix_free H.

Lemma fits_not_blocked (obj : object) (h : string) :
  In (split "." h) H -> fits H obj ->
  blocked obj (removelast (split "." h)) = false.
Proof.
  intros I F.
  pose proof (app_removelast_last "" (split_not_nil "." h)) as E.
  destruct (blocked obj (removelast (split "." h))) eqn:B; [|reflexivity].
  destruct (blocked_reach _ obj B) as (q & rest & leaf & Eq & N & R & Ol).
  pose proof (proj1 (F q leaf R) Ol) as Iq.
  rewrite E, Eq, <- app_assoc in I.
  pose proof (free q _ Iq I) as Z. now destruct rest.
Qed.

Lemma last_not_proto (h : string) :
  In (split "." h) H -> last (split "." h) "" <> "__proto__".
Proof.
  intros I Z.
  pose proof (app_removelast_last "" (split_not_nil "." h)) as E.
  assert (C : mem (last (split "." h) "") object_proto = false).
  { apply (plain _ _ I).
    pose proof (in_or_app (removelast (split "." h)) [last (split "." h) ""]
                  (last (split "." h) "") (or_intror (or_introl eq_refl))) as X.
    now rewrite <- E in X. }
  rewrite Z in C. discriminate.
Qed.

Lemma paths_apart (p q : list string) :
  In p H -> In q H -> p <> q -> apart p q = true.
Proof.
  intros Ip Iq N. destruct (apart p q) eqn:E; [reflexivity|].
  destruct (apart_false p q E) as (rest & [-> | ->]).
  - pose proof (free p rest Ip Iq) as Z. subst rest.
    rewrite app_nil_r in N. congruence.
  - pose proof (free q rest Iq Ip) as Z. subst rest.
    rewrite app_nil_r in N. congruence.
Qed.

Lemma setNestedProperty_lands (obj : object) (h v : string) (x : value)
  (r : object) :
  In (split "." h) H -> fits H obj -> v <> "" ->
  stored h (VStr v) = Ok x ->
  setNestedProperty obj h (VStr v) = Ok r ->
  reach r (split "." h) = Some x.
Proof.
  intros I F N S. unfold setNestedProperty.
  rewrite (is_empty_string_VStr v N), S. simpl. intros W.
  apply walk_reach in W;
    [|apply String.eqb_neq; now apply last_not_proto].
  rewrite (fits_not_blocked obj h I F) in W.
  now rewrite <- app_removelast_last in W by apply split_not_nil.
Qed.

(** The row loop over columns that fit together and differ: what the
    record held apart from every column is kept, and the value of each
    column that is not empty is found at the column's path. *)
Lemma forEach_lands (hs : list string) :
  (forall h, In h hs -> In (split "." h) H) -> NoDup hs ->
  forall (index : nat) (values : list string) (obj r : object),
    fits H obj -> forEach hs index values obj = Ok r ->
    (forall q x,
        reach obj q = Some x ->
        (forall h, In h hs -> apart q (split "." h) = true) ->
        reach r q = Some x)
    /\ (forall k h v x,
           nth_error hs k = Some h -> nth_error values (index + k) = Some v ->
           v <> "" -> stored h (VStr v) = Ok x ->
           reach r (split "." h) = Some x).
Proof.
  induction hs as [|h hs IH]; intros I D index values obj r F E.
  - simpl in E. injection E as <-. split; [auto|].
    intros k; destruct k; discriminate.
  - simpl in E.
    assert (Ih : In (split "." h) H) by (apply I; now left).
    destruct (setNestedProperty_fits H plain free obj h values index Ih F)
      as (o & So & Fo).
    rewrite So in E. simpl in E.
    inversion D as [|? ? Nh D']; subst.
    destruct (IH (fun h' I' => I h' (or_intror I')) D' (S index) values o r Fo E)
      as [Keep Land].
    split.
    + intros q x R A. apply Keep; [|intros h' I'; apply A; now right].
      apply (setNestedProperty_keeps obj h _ o q x (last_not_proto h Ih) So);
        [apply A; now left|exact R].
    + intros k h' v x Hk Hv Nv S. destruct k as [|k].
      * simpl in Hk. injection Hk as <-. rewrite Nat.add_0_r in Hv.
        assert (Vh : value_at values index = VStr v)
          by (unfold value_at; now rewrite Hv).
        rewrite Vh in So.
        apply Keep; [exact (setNestedProperty_lands obj h v x o Ih F Nv S So)|].
        intros h' I'. apply paths_apart; [exact Ih|apply I; now right|].
        intros Eq. apply split_inj in Eq. subst h'. contradiction.
      * simpl in Hk. apply (Land k h' v x Hk); [|exact Nv|exact S].
        now rewrite Nat.add_succ_r in Hv.
Qed.

End Landing.

(** C4. When the paths of the header fit together (none continues another,
    none has a segment that [Object.prototype] defines) and no two columns
    are the same, the value of every column that the line gives and that is
    not empty is found in the record at the column's path, as the number
    [parseInt] reads for the path [age] and as the string itself otherwise,
    and from there in the row: under [age] for the path [age] (0 for
    not-a-number and for 0), inside the mapping [age] or [address] for a
    longer path below them, as [address] itself for the path [address],
    inside [additional_info] at the whole path when the first segment is
    none of [name], [age], [address], and in [name], before or after the
    space, for [name.firstName] and [name.lastName]; the value of a column
    [name] is lost. The header and row of the example give the row of the
    example. *)
Theorem assign_then_transform (header line : string) (i : nat)
  (h v : string) :
  fitting header = true ->
  NoDup (split "," header) ->
  nth_error (split "," header) i = Some h ->
  nth_error (split "," line) i = Some v ->
  v <> "" ->
  exists obj r,
    forEach (split "," header) 0 (split "," line) [] = Ok obj
    /\ transformForDb obj = Ok r
    /\ row_of_line (split "," header) line = Ok r
    /\ reach obj (split "." h) =
       Some (if h =? "age" then parseInt10 v else VStr v)
    /\ (h = "age" -> age r = or_else (parseInt10 v) (VNum 0))
    /\ (forall rest, rest <> [] -> split "." h = "age" :: rest ->
          exists m, age r = VObj m /\ reach m rest = Some (VStr v))
    /\ (h = "address" -> address r = VStr v)
    /\ (forall rest, rest <> [] -> split "." h = "address" :: rest ->
          exists a, address r = VObj a /\ reach a rest = Some (VStr v))
    /\ (mem (first_segment h) ["name"; "age"; "address"] = false ->
          exists ai, additional_info r = VObj ai
                     /\ reach ai (split "." h) = Some (VStr v))
    /\ (h = "name.firstName" ->
          name r = trim (v ++ " "
                           ++ shown (member (get_or_undef obj "name") "lastName")))
    /\ (h = "name.lastName" ->
          name r = trim (shown (member (get_or_undef obj "name") "firstName")
                           ++ " " ++ v))
    /\ (h = "name.firstName" ->
          forall j b,
            nth_error (split "," header) j = Some "name.lastName" ->
            nth_error (split "," line) j = Some b -> b <> "" ->
            name r = trim (v ++ " " ++ b))
    /\ (h = "name" -> name r = "")
    /\ row_of_line
         (split "," "name.firstName,name.lastName,age,address.city,hobby")
         "Ann,Lee,34,Paris,chess" =
       Ok {| name := "Ann Lee"; age := VNum 34;
             address := VObj [("city", VStr "Paris")];
             additional_info := VObj [("hobby", VStr "chess")] |}.
Proof.
  unfold fitting. intros W D Hh Hv Nv. apply andb_true_iff in W as [P F].
  apply plain_pathsb_spec in P. apply prefix_freeb_spec in F.
  set (hs := split "," header) in *. set (H := map (split ".") hs) in *.
  assert (I : forall h, In h hs -> In (split "." h) H)
    by (intros h' I'; now apply in_map).
  destruct (forEach_fits H P F hs I 0 (split "," line) [] (fits_empty H))
    as (obj & E & Fo).
  destruct (forEach_lands H P F hs I D 0 (split "," line) [] obj
              (fits_empty H) E) as [_ Land].
  set (firstName := member (get_or_undef obj "name") "firstName").
  set (lastName := member (get_or_undef obj "name") "lastName").
  assert (T : transformForDb obj =
              Ok {| name := trim (shown firstName ++ " " ++ shown lastName);
                    age := or_else (get_or_undef obj "age") (VNum 0);
                    address := or_else (get_or_undef obj "address") VNull;
                    additional_info := VObj (rest_of obj) |}).
  { unfold transformForDb, firstName, lastName.
    rewrite (ToString_shown _ (member_printable H P obj "firstName" Fo)).
    rewrite (ToString_shown _ (member_printable H P obj "lastName" Fo)).
    reflexivity. }
  assert (Rage : h = "age" -> get obj "age" = Some (parseInt10 v)).
  { intros ->. apply (Land i "age" v); try assumption. now apply stored_age. }
  assert (Rstr : h <> "age" -> reach obj (split "." h) = Some (VStr v)).
  { intros N. apply (Land i h v); try assumption. now apply stored_other. }
  assert (Tv : truthy (VStr v) = true).
  { simpl. apply negb_true_iff. now apply String.eqb_neq. }
  assert (Below : forall k rest, rest <> [] -> split "." h = k :: rest ->
            exists m, get obj k = Some (VObj m)
                      /\ reach m rest = Some (VStr v)).
  { intros k rest Nr S. apply reach_cons_inv; [exact Nr|].
    rewrite <- S. apply Rstr. intros ->. simpl in S. injection S as _ S.
    now subst rest. }
  eexists obj, _. split; [exact E|]. split; [exact T|].
  split; [unfold row_of_line; fold hs; rewrite E; exact T|].
  cbn [name age address additional_info].
  split.
  { destruct (String.eqb_spec h "age") as [->|N];
      [now apply Rage|now apply Rstr]. }
  split.
  { intros A. unfold get_or_undef. now rewrite (Rage A). }
  split.
  { intros rest Nr S. destruct (Below "age" rest Nr S) as (m & G & R).
    exists m. unfold get_or_undef. now rewrite G. }
  split.
  { intros ->. pose proof (Rstr ltac:(discriminate)) as R.
    change (get obj "address" = Some (VStr v)) in R.
    unfold or_else, get_or_undef. now rewrite R, Tv. }
  split.
  { intros rest Nr S. destruct (Below "address" rest Nr S) as (m & G & R).
    exists m. unfold get_or_undef. now rewrite G. }
  split.
  { intros M. exists (rest_of obj). split; [reflexivity|].
    rewrite (reach_rest_of obj _ M). apply Rstr. intros ->. discriminate M. }
  split.
  { intros ->. pose proof (Rstr ltac:(discriminate)) as R.
    apply member_reach in R. fold firstName in R. now rewrite R. }
  split.
  { intros ->. pose proof (Rstr ltac:(discriminate)) as R.
    apply member_reach in R. fold lastName in R. now rewrite R. }
  split.
  { intros -> j b Hj Hb Nb. pose proof (Rstr ltac:(discriminate)) as R.
    apply member_reach in R. fold firstName in R.
    assert (R' : reach obj (split "." "name.lastName") = Some (VStr b)).
    { apply (Land j "name.lastName" b); try assumption. reflexivity. }
    apply member_reach in R'. fold lastName in R'. now rewrite R, R'. }
  split.
  { intros ->. pose proof (Rstr ltac:(discriminate)) as R.
    change (get obj "name" = Some (VStr v)) in R.
    unfold firstName, lastName, get_or_undef. now rewrite R. }
  reflexivity.
Qed.

Lemma assign_then_transform_witness :
  exists r,
    row_of_line
      (split "," "name.firstName,name.lastName,age,address.city,hobby")
      "Ann,Lee,34,Paris,chess" = Ok r
    /\ exists a, address r = VObj a /\ reach a ["city"] = Some (VStr "Paris").
Proof.
  destruct (assign_then_transform
              "name.firstName,name.lastName,age,address.city,hobby"
              "Ann,Lee,34,Paris,chess" 3 "address.city" "Paris")
    as (obj & r & _ & _ & R & _ & _ & _ & _ & A & _).
  - reflexivity.
  - vm_compute.
    repeat (apply NoDup_cons; [simpl; intuition discriminate|]).
    apply NoDup_nil.
  - reflexivity.
  - reflexivity.
  - discriminate.
  - exists r. split; [exact R|]. apply (A ["city"]); [discriminate|reflexivity].
Defined.
